(** * RequestQueue (packages/client-arena/src/base.ts, lines 21-69)

    A shallow embedding of the request-serialisation queue of the Arena
    client, and the properties of its scheduling contract.

    JavaScript runs the queue on one thread: code runs without interruption
    from one [await] to the next.  The embedding follows that: a state holds
    the two fields of the class, the promises handed to callers, and the
    activations of [processQueue] that are parked at an [await]; an event is
    what the host does next (a caller calls [add], the awaited request
    settles, a timer fires), and [step] runs the code from that point up to
    the next [await]. *)

From Stdlib Require Import ZArith QArith Qround Qpower String Ascii Lia Lqa.
From stdpp Require Import base list sorting.

(** ** Values *)

(** What a request produces ([T] in [add<T>]) and what it throws. *)
Abbreviation value := Z (only parsing).
Abbreviation error := string (only parsing).

(** A caller's [request: () => Promise<T>].  The queue never looks inside
    it, so it is a name; how a call of it settles is the environment's
    choice and arrives as an event. *)
Abbreviation op := nat (only parsing).

Inductive outcome :=
| Ok (v : value)
| Err (e : error).

(** ** Promises returned by [add] *)

Inductive promise_state :=
| Pending
| Fulfilled (v : value)
| Rejected (e : error).

(** A promise is its index in the store, in order of creation. *)
Abbreviation promise := nat (only parsing).

(** [promises]: the state of every promise created by [add];
    [settled]: the promises in the order in which they settled. *)
Record store := Store {
  promises : list promise_state;
  settled : list promise
}.

(** [resolve] and [reject] of a promise act once: on a promise that is
    already settled they do nothing. *)
Definition settle (p : promise) (st : promise_state) (h : store) : store :=
  match promises h !! p with
  | Some Pending => {| promises := <[p := st]> (promises h);
                       settled := settled h ++ [p] |}
  | _ => h
  end.

Definition resolve (p : promise) (v : value) : store -> store :=
  settle p (Fulfilled v).

Definition reject (p : promise) (e : error) : store -> store :=
  settle p (Rejected e).

(** ** Queue entries *)

(** How the call of an entry ends: it returns, or it throws. *)
Inductive completion :=
| Returned
| Thrown (e : error).

(** An element of [queue: (() => Promise<any>)[]]: an async closure.
    Calling it calls [request]; when that settles, [finish] runs the rest of
    the closure on the store and says how the closure's own promise ends. *)
Record thunk := Thunk {
  request : op;
  finish : outcome -> store -> store * completion
}.

(** The closure that [add] pushes (lines 27-34):
<<
    async () => {
        try { const result = await request(); resolve(result); }
        catch (error) { reject(error); }
    }
>> *)
Definition wrapper (r : op) (p : promise) : thunk :=
  {| request := r;
     finish := fun o h =>
       match o with
       | Ok result => (resolve p result h, Returned)
       | Err e => (reject p e h, Returned)
       end |}.

(** ** Numbers *)

(** A JavaScript number is a double: a rational is read as the number it
    denotes.  [ilog2 x], for a positive [x], is the exponent of its binade:
    [2^e <= x < 2^(e+1)]. *)
Definition ilog2 (x : Q) : Z :=
  let e := (Z.log2 (Qnum x) - Z.log2 (Zpos (Qden x)))%Z in
  if Qle_bool (2 ^ e) x then e else (e - 1)%Z.

(** The distance between the doubles next to a positive [x]: 53 bits of
    significand, and the subnormal numbers below [2^-1022]. *)
Definition ulp (x : Q) : Q := 2 ^ (Z.max (ilog2 x) (-1022) - 52).

(** The nearest integer, ties to even. *)
Definition roundHalfEven (q : Q) : Z :=
  let n := Qfloor q in
  match ((q - inject_Z n) ?= (1 # 2))%Q with
  | Lt => n
  | Gt => (n + 1)%Z
  | Eq => if Z.even n then n else (n + 1)%Z
  end.

(** The double nearest to a real number that is not negative, ties to even,
    as every arithmetic operation of the language rounds its exact result
    (below the overflow threshold, where the result is finite). *)
Definition roundDouble (x : Q) : Q :=
  if Qle_bool x 0 then 0
  else Qred (inject_Z (roundHalfEven (x / ulp x)) * ulp x).

(** A rational that is a double. *)
Definition isDouble (x : Q) : bool := Qeq_bool (roundDouble x) x.

(** A number that is not negative: finite, or [Infinity]. *)
Inductive number :=
| Finite (x : Q)
| Infinity.

(** [Math.pow(2, n)] for a natural number [n]. *)
Definition Math_pow2 (n : nat) : number :=
  if n <=? 1023 then Finite (inject_Z (2 ^ Z.of_nat n)) else Infinity.

(** [a * b] for two numbers that are positive. *)
Definition multiply (a b : number) : number :=
  match a, b with
  | Finite x, Finite y =>
      let z := roundDouble (x * y) in
      if Qle_bool (2 ^ 1024) z then Infinity else Finite z
  | _, _ => Infinity
  end.

(** ** The drain loop *)

(** What the code writes to the console and the timers it sets, in order. *)
Inductive obs :=
| Called (r : op)            (* [request()] was called *)
| ConsoleError (e : error)   (* [console.error("Error processing request:", error)] *)
| Backoff (ms : number)      (* the [setTimeout] of [exponentialBackoff] *)
| Pacing (ms : Z).           (* the [setTimeout] of [randomDelay] *)

(** Where an activation of [processQueue] is parked. *)
Inductive pc :=
| AwaitRequest (t : thunk)   (* line 48, [await request()] *)
| AwaitBackoff (ms : number) (* line 52, [await this.exponentialBackoff(..)] *)
| AwaitPacing (ms : Z).      (* line 54, [await this.randomDelay()] *)

Record state := State {
  queue : list thunk;        (* [private queue] *)
  processing : bool;         (* [private processing] *)
  loops : list pc;           (* parked activations of [processQueue] *)
  heap : store;
  draws : nat;               (* calls of [Math.random()] so far *)
  trace : list obs
}.

Definition init : state :=
  {| queue := []; processing := false; loops := [];
     heap := {| promises := []; settled := [] |};
     draws := 0; trace := [] |}.

Definition set_queue (q : list thunk) (s : state) : state :=
  {| queue := q; processing := processing s; loops := loops s;
     heap := heap s; draws := draws s; trace := trace s |}.

Definition set_processing (b : bool) (s : state) : state :=
  {| queue := queue s; processing := b; loops := loops s;
     heap := heap s; draws := draws s; trace := trace s |}.

Definition set_loops (l : list pc) (s : state) : state :=
  {| queue := queue s; processing := processing s; loops := l;
     heap := heap s; draws := draws s; trace := trace s |}.

Definition set_heap (h : store) (s : state) : state :=
  {| queue := queue s; processing := processing s; loops := loops s;
     heap := h; draws := draws s; trace := trace s |}.

Definition set_draws (n : nat) (s : state) : state :=
  {| queue := queue s; processing := processing s; loops := loops s;
     heap := heap s; draws := n; trace := trace s |}.

Definition emit (o : obs) (s : state) : state :=
  {| queue := queue s; processing := processing s; loops := loops s;
     heap := heap s; draws := draws s; trace := trace s ++ [o] |}.

(** An activation reaches an [await] and parks there. *)
Definition park (c : pc) (s : state) : state :=
  set_loops (loops s ++ [c]) s.

(** [exponentialBackoff] (lines 60-63): the number it passes to
    [setTimeout], [Math.pow(2, retryCount) * 1000].  (A timer of Node waits
    the number it is handed only when that is at most [2^31 - 1].) *)
Definition exponentialBackoff (retryCount : nat) : number :=
  multiply (Math_pow2 retryCount) (Finite 1000).

(** [randomDelay] (lines 65-68) for the value [r] returned by
    [Math.random()]: [Math.floor(r * 2000) + 1500].  The product of a number
    below 1 and 2000 is finite. *)
Definition randomDelay (r : Q) : Z :=
  (Qfloor (roundDouble (r * 2000)) + 1500)%Z.

(** What happens when an [event] occurs. *)
Inductive event :=
| Add (r : op)                  (* a caller calls [add(request)] *)
| Settle (i : nat) (o : outcome) (* the request awaited by activation [i] settles *)
| Timer (i : nat).              (* the timer awaited by activation [i] fires *)

Section Queue.

(** The value of the [k]-th call of [Math.random()]. *)
Variable random : nat -> Q.

(** Line 54, [await this.randomDelay()]: draw, set the timer, park. *)
Definition pace (s : state) : state :=
  let ms := randomDelay (random (draws s)) in
  park (AwaitPacing ms) (emit (Pacing ms) (set_draws (S (draws s)) s)).

(** Lines 45-48 and 57: the loop test; then either the head is removed and
    called, and the activation parks at [await request()], or the loop is
    left and the flag cleared. *)
Definition while_loop (s : state) : state :=
  match queue s with
  | [] => set_processing false s
  | t :: q => park (AwaitRequest t) (emit (Called (request t)) (set_queue q s))
  end.

(** Lines 39-44: the guard of [processQueue], then the loop. *)
Definition processQueue (s : state) : state :=
  if processing s || (length (queue s) =? 0)
  then s
  else while_loop (set_processing true s).

(** Lines 25-37: [add] creates the promise, pushes the wrapper and calls
    [processQueue]; it returns the promise. *)
Definition add (r : op) (s : state) : promise * state :=
  let p := length (promises (heap s)) in
  let h := {| promises := promises (heap s) ++ [Pending];
              settled := settled (heap s) |} in
  (p, processQueue (set_queue (queue s ++ [wrapper r p]) (set_heap h s))).

(** Lines 48-54, from the point where the awaited entry ends. *)
Definition after_request (t : thunk) (o : outcome) (s : state) : state :=
  let '(h, c) := finish t o (heap s) in
  let s := set_heap h s in
  match c with
  | Returned => pace s
  | Thrown e =>
      let s := emit (ConsoleError e) s in
      let s := set_queue (t :: queue s) s in
      let ms := exponentialBackoff (length (queue s)) in
      park (AwaitBackoff ms) (emit (Backoff ms) s)
  end.

(** One event.  The activation that is woken leaves [loops] and runs to its
    next [await].  An event that cannot occur in the state (no such
    activation, or one parked elsewhere) changes nothing. *)
Definition step (ev : event) (s : state) : state :=
  match ev with
  | Add r => snd (add r s)
  | Settle i o =>
      match loops s !! i with
      | Some (AwaitRequest t) => after_request t o (set_loops (delete i (loops s)) s)
      | _ => s
      end
  | Timer i =>
      match loops s !! i with
      | Some (AwaitBackoff _) => pace (set_loops (delete i (loops s)) s)
      | Some (AwaitPacing _) => while_loop (set_loops (delete i (loops s)) s)
      | _ => s
      end
  end.

Definition run (evs : list event) (s : state) : state :=
  fold_left (fun s ev => step ev s) evs s.

End Queue.

(** ** Reading a state *)

(** The entry an activation is executing, if it is parked on one. *)
Definition inflight (c : pc) : list thunk :=
  match c with
  | AwaitRequest t => [t]
  | _ => []
  end.

Definition executing (s : state) : list thunk :=
  loops s ≫= inflight.

(** Every entry that has been pushed and has not finished: the one being
    executed, then the queue from head to tail. *)
Definition pending (s : state) : list thunk :=
  executing s ++ queue s.

(** The requests called, in the order of the calls. *)
Definition calls (tr : list obs) : list op :=
  tr ≫= (fun o => match o with Called r => [r] | _ => [] end).

(** The requests submitted by a sequence of events, in order. *)
Definition submitted (evs : list event) : list op :=
  evs ≫= (fun ev => match ev with Add r => [r] | _ => [] end).

(** Nothing on the trace comes from the [catch] branch of [processQueue]. *)
Definition quiet (o : obs) : bool :=
  match o with
  | ConsoleError _ | Backoff _ => false
  | Called _ | Pacing _ => true
  end.

Definition is_backoff (c : pc) : bool :=
  match c with
  | AwaitBackoff _ => true
  | _ => false
  end.

(** No request of the sequence throws. *)
Definition succeeds (ev : event) : bool :=
  match ev with
  | Settle _ (Err _) => false
  | _ => true
  end.

(** The wrappers of the requests [rs], when the first of them got the
    promise [p] and the others the promises after it. *)
Fixpoint wrappers (p : promise) (rs : list op) : list thunk :=
  match rs with
  | [] => []
  | r :: rs => wrapper r p :: wrappers (S p) rs
  end.

(** The events that let the loop run on its own: each request in turn
    settles as [outs] says, and the pacing timer after it fires. *)
Definition drive (outs : list outcome) : list event :=
  outs ≫= (fun o => [Settle 0 o; Timer 0]).

(** The timer a parked loop is waiting for, if it waits for one. *)
Definition wake (s : state) : list event :=
  match loops s with
  | AwaitRequest _ :: _ | [] => []
  | _ => [Timer 0]
  end.

(** How the promise of a request ends once the request has settled. *)
Definition promised (o : outcome) : promise_state :=
  match o with
  | Ok v => Fulfilled v
  | Err e => Rejected e
  end.

(** The events that come from the loop's own awaits, not from a caller. *)
Definition internal (ev : event) : bool :=
  match ev with
  | Add _ => false
  | _ => true
  end.

(** A promise that is pending or fulfilled. *)
Definition not_rejected (st : promise_state) : Prop :=
  forall e, st <> Rejected e.

(** ** The invariant of the states the class can be in

    [subs] are the requests submitted so far.  The promises settle in the
    order of creation, so the settled ones are the first [k]; the entries
    not yet finished are the wrappers of the requests from the [k]-th on. *)
Record inv (subs : list op) (s : state) : Prop := Inv {
  inv_loops :
    match loops s with
    | [] => processing s = false /\ queue s = []
    | [c] => processing s = true /\ is_backoff c = false
    | _ => False
    end;
  inv_le : length (settled (heap s)) <= length subs;
  inv_pending :
    pending s = wrappers (length (settled (heap s)))
                         (drop (length (settled (heap s))) subs);
  inv_count : length (promises (heap s)) = length subs;
  inv_settled : settled (heap s) = seq 0 (length (settled (heap s)));
  inv_done : forall p, p < length (settled (heap s)) ->
    exists st, promises (heap s) !! p = Some st /\ st <> Pending;
  inv_todo : forall p, length (settled (heap s)) <= p < length subs ->
    promises (heap s) !! p = Some Pending;
  inv_quiet : forallb quiet (trace s) = true;
  inv_calls :
    calls (trace s)
    = take (length (settled (heap s)) + length (executing s)) subs
}.

(** ** Sample inputs *)

(** An error a request may throw. *)
Definition boom : error := "boom"%string.

(** [Math.random()] returning 0.5 every time. *)
Definition half (k : nat) : Q := 1 # 2.


(** An entry of the queue's element type that lets the error of its request
    escape: [async () => { await request(); }]. *)
Definition bare (r : op) : thunk :=
  {| request := r;
     finish := fun o h =>
       match o with
       | Ok _ => (h, Returned)
       | Err e => (h, Thrown e)
       end |}.

(** A loop executing such an entry with two wrappers queued behind it. *)
Definition stuck : state :=
  {| queue := [wrapper 1 0; wrapper 2 1];
     processing := true;
     loops := [AwaitRequest (bare 0)];
     heap := {| promises := [Pending; Pending]; settled := [] |};
     draws := 0;
     trace := [Called 0] |}.

(** * Strings and truncation (utils.ts, post.ts) *)

(** A JavaScript string is the list of its UTF-16 code units. *)
Abbreviation jsstring := (list N) (only parsing).

Definition period : N := 46.
Definition space : N := 32.

(** ["..."] *)
Definition dots : jsstring := [period; period; period].

(** The code units that [String.prototype.trim] removes: ECMAScript's
    WhiteSpace and LineTerminator. *)
Definition is_white (c : N) : bool :=
  existsb (N.eqb c)
    [9; 10; 11; 12; 13; 32; 160; 5760; 8232; 8233; 8239; 8287; 12288; 65279]%N
  || ((8192 <=? c) && (c <=? 8202))%N.

Fixpoint trimStart (s : jsstring) : jsstring :=
  match s with
  | [] => []
  | c :: s' => if is_white c then trimStart s' else s
  end.

Definition trimEnd (s : jsstring) : jsstring :=
  rev (trimStart (rev s)).

Definition trim (s : jsstring) : jsstring :=
  trimEnd (trimStart s).

(** [s.slice(start, end)]: a negative index counts from the end, and both
    are clamped to the string. *)
Definition slice (s : jsstring) (start end_ : Z) : jsstring :=
  let len := Z.of_nat (length s) in
  let from := if (start <? 0)%Z then Z.max (len + start) 0 else Z.min start len in
  let to := if (end_ <? 0)%Z then Z.max (len + end_) 0 else Z.min end_ len in
  take (Z.to_nat (to - from)) (drop (Z.to_nat from) s).

(** The index of the last [c] in [l], counting the head as [i]; [-1] when
    there is none. *)
Fixpoint find_last (c : N) (l : jsstring) (i : Z) : Z :=
  match l with
  | [] => (-1)%Z
  | x :: l' =>
      let r := find_last c l' (i + 1) in
      if (0 <=? r)%Z then r else if (x =? c)%N then i else (-1)%Z
  end.

(** [s.lastIndexOf(c, position)] for a search string of one code unit: the
    search starts at [position], clamped to the string, and goes backwards. *)
Definition lastIndexOf (s : jsstring) (c : N) (position : Z) : Z :=
  let len := Z.of_nat (length s) in
  let start := Z.min (Z.max position 0) (len - 1) in
  find_last c (take (Z.to_nat (start + 1)) s) 0.


Definition truncateMessage (content : jsstring) (maxLength : Z) : jsstring :=
  if (Z.of_nat (length content) <=? maxLength)%Z then content
  else
    let truncatedAtPeriod :=
      slice content 0 (lastIndexOf content period maxLength + 1) in
    if 0 <? length (trim truncatedAtPeriod) then trim truncatedAtPeriod
    else
      let truncatedAtSpace :=
        slice content 0 (lastIndexOf content space maxLength) in
      if 0 <? length (trim truncatedAtSpace) then trim truncatedAtSpace ++ dots
      else trim (slice content 0 (maxLength - 3)) ++ dots.



(** * Random delays (utils.ts, environment.ts, chat.ts, post.ts) *)

(** [r] is what [Math.random()] returns; its product with the number of
    values is taken exactly. *)


(** environment.ts, [start] (lines 147-155): the delay after which
    [handleInteractionsLoop] runs again. *)
Definition interactionsDelay (r : Q) : Z :=
  let randomMinutes := (Qfloor (r * inject_Z (5 - 2 + 1)) + 2)%Z in
  (randomMinutes * 60 * 1000)%Z.

(** chat.ts, [start] (lines 133-143): the delay after which [handleChatLoop]
    runs again. *)
Definition chatDelay (r : Q) : Z :=
  let randomSeconds := (Qfloor (r * inject_Z (20 - 5 + 1)) + 5)%Z in
  (randomSeconds * 1000)%Z.




(** * Paging through the API (arena.ts) *)

(** What a request to the API comes to: the parsed body, or an error thrown
    by [fetchWithAuth] (a response that is not [ok]), by [fetch] itself or
    by [response.json()]. *)
Inductive fetched (A : Type) :=
| Fetched (body : A)
| Failed (e : error).
Arguments Fetched {A} body.
Arguments Failed {A} e.

(** What a call returns: a value, or it throws. *)
Inductive returned (A : Type) :=
| Return (v : A)
| Throw (e : error).
Arguments Return {A} v.
Arguments Throw {A} e.

(** A field of a JSON body that holds a number: it may be missing
    ([undefined] when it is read), [null], or a number. *)
Inductive count :=
| Missing
| Null
| Count (n : Q).

(** [currentPage >= numberOfPages].  [undefined] is converted to [NaN], with
    which every comparison is false; [null] is converted to 0. *)
Definition reached (currentPage : Z) (numberOfPages : count) : bool :=
  match numberOfPages with
  | Missing => false
  | Null => Qle_bool 0 (inject_Z currentPage)
  | Count n => Qle_bool n (inject_Z currentPage)
  end.

(** The fields of [NotificationsResponse] that [getAllNotifications] reads.
    [notifications] is an array, or [None] when it is missing or [null]. *)
Record NotificationsResponse (A : Type) := {
  notifications : option (list A);
  numberOfPages : count
}.
Arguments notifications {A} _.
Arguments numberOfPages {A} _.

Section Paging.

Context {A : Type}.

(** The server: what [getNotifications(page)] is answered. *)
Variable getNotifications : Z -> fetched (NotificationsResponse A).

(** [getAllNotifications] (lines 356-383): the [while] loop, with the pages
    requested so far.  [fuel] bounds the number of iterations; [None] means
    it ran out. *)
Fixpoint notificationsLoop (fuel : nat) (maxPages currentPage : Z)
    (allNotifications : list A) (asked : list Z)
    : option (returned (list A) * list Z) :=
  if (currentPage <=? maxPages)%Z then
    match fuel with
    | 0 => None
    | S fuel =>
        match getNotifications currentPage with
        | Failed e => Some (Throw e, asked ++ [currentPage])
        | Fetched response =>
            match notifications response with
            | None | Some [] =>
                Some (Return allNotifications, asked ++ [currentPage])
            | Some ns =>
                if reached currentPage (numberOfPages response)
                then Some (Return (allNotifications ++ ns), asked ++ [currentPage])
                else notificationsLoop fuel maxPages (currentPage + 1)
                       (allNotifications ++ ns) (asked ++ [currentPage])
            end
        end
    end
  else Some (Return allNotifications, asked).

Definition getAllNotifications (maxPages : Z)
    : option (returned (list A) * list Z) :=
  notificationsLoop (Z.to_nat maxPages) maxPages 1 [] [].

(** The server: what [getThreadFeed(page)] is answered; the body's
    [threads]. *)
Variable getThreadFeed : Z -> fetched (option (list A)).

(** [getAllThreads] (lines 241-263). *)
Fixpoint threadsLoop (fuel : nat) (maxPages currentPage : Z)
    (allThreads : list A) (asked : list Z)
    : option (returned (list A) * list Z) :=
  if (currentPage <=? maxPages)%Z then
    match fuel with
    | 0 => None
    | S fuel =>
        match getThreadFeed currentPage with
        | Failed e => Some (Throw e, asked ++ [currentPage])
        | Fetched threads =>
            match threads with
            | None | Some [] =>
                Some (Return allThreads, asked ++ [currentPage])
            | Some ts =>
                threadsLoop fuel maxPages (currentPage + 1)
                  (allThreads ++ ts) (asked ++ [currentPage])
            end
        end
    end
  else Some (Return allThreads, asked).

Definition getAllThreads (maxPages : Z)
    : option (returned (list A) * list Z) :=
  threadsLoop (Z.to_nat maxPages) maxPages 1 [] [].

End Paging.

(** The items of a page, none when the page is missing, empty or failed. *)
Definition pageItems {A} (r : fetched (NotificationsResponse A)) : list A :=
  match r with
  | Fetched response =>
      match notifications response with
      | Some ns => ns
      | None => []
      end
  | Failed _ => []
  end.

Definition feedItems {A} (r : fetched (option (list A))) : list A :=
  match r with
  | Fetched (Some ts) => ts
  | _ => []
  end.


(** The request for page [p] was answered with a body. *)
Definition answered {B} (server : Z -> fetched B) (p : Z) : Prop :=
  forall e, server p <> Failed e.

(** The pages [first], [first + 1], ..., [n] of them. *)
Definition pagesFrom (first : Z) (n : nat) : list Z :=
  map (fun k => (first + Z.of_nat k)%Z) (seq 0 n).

(** * Thread links (environment.ts) *)

(** The code units of a text written in ASCII. *)
Definition units (s : string) : jsstring :=
  map N_of_ascii (list_ascii_of_string s).

Definition slash : N := 47.

(** [s.split(sep)] for a separator of one code unit: one part more than
    there are separators; the empty string gives one empty part. *)
Fixpoint split (sep : N) (s : jsstring) : list jsstring :=
  match s with
  | [] => [[]]
  | c :: s' =>
      if (c =? sep)%N then [] :: split sep s'
      else match split sep s' with
           | part :: parts => (c :: part) :: parts
           | [] => [[c]]
           end
  end.

(** Lines 158-159: [link.split('/')] and the parts that are not empty. *)
Definition segmentsOf (link : jsstring) : list jsstring :=
  List.filter (fun part => 0 <? length part) (split slash link).

(** [parseThreadIdFromLink] (lines 157-168); [None] is [null]. *)
Definition parseThreadIdFromLink (link : jsstring) : option jsstring :=
  let segments := segmentsOf link in
  if 3 <=? length segments then
    match segments !! 1 with
    | Some kind =>
        if bool_decide (kind = units "nested")
           || bool_decide (kind = units "status")
        then segments !! 2
        else None
    | None => None
    end
  else None.

(** A piece of a path: not empty and without a slash. *)
Definition segment (s : jsstring) : Prop :=
  s <> [] /\ ~ In slash s.

(** * Chat replies (chat.ts) *)

(** A code unit of the class [[.!?]]. *)
Definition terminator (c : N) : bool :=
  (c =? 46)%N || (c =? 33)%N || (c =? 63)%N.

(** [text.match(/[^.!?]+[.!?]+/g) || []]: from left to right, every longest
    run of other code units together with the longest run of terminators
    that follows it.  [body] and [marks] are the two runs being read. *)
Fixpoint scan (body marks : jsstring) (text : jsstring) : list jsstring :=
  match text with
  | [] =>
      match marks with
      | [] => []
      | _ => [body ++ marks]
      end
  | c :: rest =>
      if terminator c then
        match body with
        | [] => scan [] [] rest
        | _ => scan body (marks ++ [c]) rest
        end
      else
        match marks with
        | [] => scan (body ++ [c]) [] rest
        | _ => (body ++ marks) :: scan [c] [] rest
        end
  end.

Definition sentencesOf (text : jsstring) : list jsstring :=
  scan [] [] text.

(** [ArenaChatClient.MAX_MESSAGE_LENGTH] (line 95). *)
Definition CHAT_MAX_MESSAGE_LENGTH : nat := 400.

(** [generateResponse] (lines 290-296): what becomes of [response.text];
    an empty text is left as it is. *)
Definition shortenResponse (text : jsstring) : jsstring :=
  match text with
  | [] => []
  | _ =>
      let sentences := sentencesOf text in
      let shortText := concat (take 3 sentences) in
      if length shortText <=? CHAT_MAX_MESSAGE_LENGTH then shortText
      else slice text 0 (Z.of_nat CHAT_MAX_MESSAGE_LENGTH) ++ dots
  end.

(** * Which chat messages are answered (chat.ts) *)

(** The fields of [Message] and of its [reply] that the chat client reads.
    [None] is [null] or [undefined]. *)
Record Reply := {
  reply_userId : jsstring;
  reply_message : jsstring
}.

Record Message := {
  userId : jsstring;
  message : jsstring;
  replyId : option jsstring;
  reply : option Reply
}.

(** Truthiness of a string that may be [null]. *)
Definition present (s : option jsstring) : bool :=
  match s with
  | Some (_ :: _) => true
  | _ => false
  end.

Fixpoint startsWith (s word : jsstring) : bool :=
  match word, s with
  | [], _ => true
  | w :: word', c :: s' => (w =? c)%N && startsWith s' word'
  | _ :: _, [] => false
  end.

(** [s.includes(word)] *)
Fixpoint includes (s word : jsstring) : bool :=
  startsWith s word
  || match s with
     | [] => false
     | _ :: s' => includes s' word
     end.

(** Lines 121-124. *)
Definition ignoreWords : list jsstring :=
  map units ["shut up"; "stop"; "stfu"; "be quiet"; "stupid bot"; "hate you"]%string.

Section Chat.

(** [String.prototype.toLowerCase], which the host provides. *)
Variable toLowerCase : jsstring -> jsstring.

(** [this.runtime.agentId] *)
Variable agentId : jsstring.

(** [shouldIgnoreMessage] (lines 104-131). *)
Definition shouldIgnoreMessage (m : Message) : bool :=
  if bool_decide (userId m = agentId) then true
  else
    let messageContent := toLowerCase (message m) in
    if present (replyId m)
       && match reply m with
          | Some repliedToMessage =>
              bool_decide (reply_userId repliedToMessage = agentId)
          | None => false
          end
    then false
    else if (length messageContent <? 3) && negb (present (replyId m)) then true
    else if existsb (fun word => includes messageContent word) ignoreWords
    then true
    else false.

End Chat.

(** The values that meet in the test of [processMessage] (line 265). *)
Inductive jsval :=
| JUndefined
| JBool (b : bool)
| JString (s : jsstring).

Definition truthy (v : jsval) : bool :=
  match v with
  | JUndefined => false
  | JBool b => b
  | JString [] => false
  | JString (_ :: _) => true
  end.

(** [!v] *)
Definition jsNot (v : jsval) : jsval := JBool (negb (truthy v)).

(** [a === b] *)
Definition strictEquals (a b : jsval) : bool :=
  match a, b with
  | JUndefined, JUndefined => true
  | JBool x, JBool y => Bool.eqb x y
  | JString x, JString y => bool_decide (x = y)
  | _, _ => false
  end.

(** [message.reply?.userId] *)
Definition replyUserId (m : Message) : jsval :=
  match reply m with
  | Some r => JString (reply_userId r)
  | None => JUndefined
  end.

(** [processMessage], line 265: the test that guards "Not responding",
    [shouldRespond !== "RESPOND" && !message.reply?.userId === agentId]. *)
Definition notResponding (agentId : jsstring) (shouldRespond : jsstring)
    (m : Message) : bool :=
  negb (bool_decide (shouldRespond = units "RESPOND"))
  && strictEquals (jsNot (replyUserId m)) (JString agentId).

(** * Starting a conversation (chat.ts) *)

(** Lines 81-90: there are eight topics. *)
Definition conversationStarterTopics : nat := 8.

(** The two times the chat client keeps (lines 96-97), in milliseconds. *)
Record ChatTimes := {
  lastMessageTime : Z;
  lastInitiatedConversation : Z
}.

(** [checkForInactivity] (lines 145-165) at the time [currentTime], with
    the draw [r] and whether the post through the queue succeeded.  The
    answer has the times afterwards and the index of the topic posted, if a
    post was attempted. *)
Definition checkForInactivity (t : ChatTimes) (currentTime : Z) (r : Q)
    (posted : bool) : ChatTimes * option Z :=
  let oneHour := (60 * 60 * 1000)%Z in
  let timeSinceLastMessage := (currentTime - lastMessageTime t)%Z in
  let timeSinceLastInitiated := (currentTime - lastInitiatedConversation t)%Z in
  if (oneHour <? timeSinceLastMessage)%Z
     && (2 * oneHour <? timeSinceLastInitiated)%Z
  then
    let topic := Qfloor (r * inject_Z (Z.of_nat conversationStarterTopics)) in
    if posted
    then ({| lastMessageTime := lastMessageTime t;
             lastInitiatedConversation := currentTime |}, Some topic)
    else (t, Some topic)
  else (t, None).

(** * The history of posts (post.ts) *)

Record PostHistory := {
  content : jsstring;
  timestamp : Z
}.

Definition MAX_STORED_POSTS : nat := 50.

(** [posts.sort((a, b) => b.timestamp - a.timestamp)]: the newest first;
    the sort is stable, so posts of one timestamp keep their order.
    [insertPost p sorted] puts [p], which stood before all of [sorted], at
    its place. *)
Fixpoint insertPost (p : PostHistory) (sorted : list PostHistory)
    : list PostHistory :=
  match sorted with
  | [] => [p]
  | q :: rest =>
      if (timestamp p <? timestamp q)%Z then q :: insertPost p rest
      else p :: sorted
  end.

(** [p] stands before [q] in a list sorted with the newest first. *)
Definition newerFirst (p q : PostHistory) : Prop :=
  (timestamp q <= timestamp p)%Z.

Definition sortPosts (posts : list PostHistory) : list PostHistory :=
  foldr insertPost [] posts.

(** [storePreviousPost] (lines 299-320): what it writes to the cache under
    ["arena/previous_posts"], from what the cache held ([None]: nothing) and
    [Date.now()]. *)
Definition storePreviousPost (cached : option (list PostHistory))
    (newContent : jsstring) (now : Z) : list PostHistory :=
  let posts := match cached with Some posts => posts | None => [] end in
  let posts := posts ++ [{| content := newContent; timestamp := now |}] in
  take MAX_STORED_POSTS (sortPosts posts).

Definition SIMILARITY_THRESHOLD : Q := 5 # 10.

Section Similarity.

Variable toLowerCase : jsstring -> jsstring.

(** [new Set(str.toLowerCase().split(' '))]: the words, each once, in the
    order of their first occurrence. *)
Definition wordSet (str : jsstring) : list jsstring :=
  remove_dups (split space (toLowerCase str)).

(** [calculateStringSimilarity] (lines 322-328); the quotient of the two
    sizes is exact. *)
Definition calculateStringSimilarity (str1 str2 : jsstring) : Q :=
  let words1 := wordSet str1 in
  let words2 := wordSet str2 in
  let intersection :=
    List.filter (fun x => bool_decide (x ∈ words2)) words1 in
  let union := remove_dups (words1 ++ words2) in
  inject_Z (Z.of_nat (length intersection)) / inject_Z (Z.of_nat (length union)).

(** [checkContentSimilarity] (lines 330-355), from what the cache holds. *)
Definition checkContentSimilarity (cached : option (list PostHistory))
    (newContent : jsstring) : bool :=
  let posts := match cached with Some posts => posts | None => [] end in
  let recentPosts := take 10 (sortPosts posts) in
  existsb (fun post =>
             negb (Qle_bool (calculateStringSimilarity newContent (content post))
                            SIMILARITY_THRESHOLD))
          recentPosts.

End Similarity.

(** * The client base (base.ts) *)

Record ArenaProfile := {
  profile_id : jsstring;
  username : jsstring;
  screenName : jsstring;
  bio : jsstring;
  nicknames : list jsstring
}.

(** [character.bio] is a string or an array of strings. *)
Inductive Bio :=
| BioString (s : jsstring)
| BioArray (lines : list jsstring).

(** The fields of a thread that the base reads. *)
Record Thread := {
  thread_id : jsstring;
  thread_userId : jsstring;
  thread_content : jsstring
}.

(** What the surroundings of the client answer when [init] calls them: the
    settings and the character, the cache, the memory store and the API.
    Each call that can throw says so: [Throw e], or [Some e] for a call
    whose value is not used. *)
Record Host := {
  (* [runtime.getSetting("ARENA_BEARER_TOKEN")] *)
  bearerToken : option jsstring;
  (* [runtime.character.name] and [runtime.character.bio] *)
  characterName : jsstring;
  characterBio : Bio;
  (* [cacheManager.get('arena/profile')]; [None] is [undefined] *)
  getCachedProfile : returned (option ArenaProfile);
  (* [cacheManager.set('arena/profile', profile)] *)
  cacheProfile : ArenaProfile -> option error;
  (* [cacheManager.get('arena/timeline')] *)
  getCachedTimeline : returned (option (list Thread));
  (* [messageManager.getMemoriesByRoomIds({ roomIds })]: the ids of the
     memories found *)
  getMemoriesByRoomIds : list jsstring -> returned (list jsstring);
  (* [saveThreadAsMemory(thread)], after the threads saved before it *)
  saveThreadAsMemory : list Thread -> Thread -> option error;
  (* [fetchHomeTimeline(50)]: [response.threads], [None] when the body has
     none *)
  fetchHomeTimeline : returned (option (list Thread));
  (* [cacheManager.set('arena/timeline', timeline, ..)] *)
  cacheTimeline : list Thread -> option error
}.

(** The error of [for (const thread of timeline)] on a timeline that is
    [undefined]. *)
Definition notIterable : error := "TypeError: timeline is not iterable"%string.

(** [for (const thread of threads) { await this.saveThreadAsMemory(thread); }]
    after the threads [done]: the threads saved when the loop ends, and the
    error that ended it, if one did. *)
Fixpoint saveThreads (host : Host) (done threads : list Thread)
    : list Thread * option error :=
  match threads with
  | [] => (done, None)
  | thread :: rest =>
      match saveThreadAsMemory host done thread with
      | Some e => (done, Some e)
      | None => saveThreads host (done ++ [thread]) rest
      end
  end.

(** What [populateTimeline] did: the threads it saved as memories, in
    order; whether it asked the API for the timeline; the timeline it wrote
    to the cache, if it wrote one. *)
Record Populated := {
  saved : list Thread;
  asked_api : bool;
  cached_after : option (list Thread)
}.

(** What [init] did: the profile it wrote to the cache, if it wrote one, and
    what [populateTimeline] did. *)
Record Initialised := {
  profile_written : option ArenaProfile;
  populated : Populated
}.

Definition nothing : Populated :=
  {| saved := []; asked_api := false; cached_after := None |}.

(** [populateTimeline], lines 142-147: the timeline is fetched, saved and
    cached. *)
Definition populateFromApi (host : Host) : option error * Populated :=
  match fetchHomeTimeline host with
  | Throw e =>
      (Some e, {| saved := []; asked_api := true; cached_after := None |})
  | Return None =>
      (Some notIterable,
       {| saved := []; asked_api := true; cached_after := None |})
  | Return (Some timeline) =>
      match saveThreads host [] timeline with
      | (done, Some e) =>
          (Some e,
           {| saved := done; asked_api := true; cached_after := None |})
      | (done, None) =>
          match cacheTimeline host timeline with
          | Some e =>
              (Some e,
               {| saved := done; asked_api := true; cached_after := None |})
          | None =>
              (None,
               {| saved := done; asked_api := true;
                  cached_after := Some timeline |})
          end
      end
  end.

Section Timeline.

(** [stringToUuid] of the framework, and [this.runtime.agentId]. *)
Variable stringToUuid : jsstring -> jsstring.
Variable agentId : jsstring.

(** [stringToUuid(thread.id + "-" + this.runtime.agentId)]: the id of the
    memory of a thread, and of its room. *)
Definition memoryIdOf (thread : Thread) : jsstring :=
  stringToUuid (thread_id thread ++ units "-" ++ agentId).

(** The profile that [fetchProfile] makes from the character (lines
    224-232). *)
Definition characterProfile (host : Host) : ArenaProfile :=
  {| profile_id := agentId;
     username := characterName host;
     screenName := characterName host;
     bio := match characterBio host with
            | BioString s => s
            | BioArray (first :: _) => first
            | BioArray [] => []
            end;
     nicknames := [] |}.

(** [fetchProfile] (lines 218-243): what it returns ([Return None] is
    [undefined]) and the profile it wrote to the cache, if it wrote one.
    The read of the cache is outside the [try]; the write is inside it. *)
Definition fetchProfile (host : Host)
    : returned (option ArenaProfile) * option ArenaProfile :=
  match getCachedProfile host with
  | Throw e => (Throw e, None)
  | Return (Some cached) => (Return (Some cached), None)
  | Return None =>
      let profile := characterProfile host in
      match cacheProfile host profile with
      | None => (Return (Some profile), Some profile)
      | Some _ => (Return None, None)
      end
  end.

(** [populateTimeline] (lines 110-148): the error it throws, if it throws,
    and what it did until then. *)
Definition populateTimeline (host : Host) : option error * Populated :=
  match getCachedTimeline host with
  | Throw e => (Some e, nothing)
  | Return None => populateFromApi host
  | Return (Some cachedTimeline) =>
      match getMemoriesByRoomIds host (map memoryIdOf cachedTimeline) with
      | Throw e => (Some e, nothing)
      | Return existingMemoryIds =>
          let someCachedThreadsExist :=
            existsb (fun thread =>
                       bool_decide (memoryIdOf thread ∈ existingMemoryIds))
                    cachedTimeline in
          if someCachedThreadsExist then
            let threadsToSave :=
              List.filter
                (fun thread =>
                   negb (bool_decide (memoryIdOf thread ∈ existingMemoryIds)))
                cachedTimeline in
            let '(done, err) := saveThreads host [] threadsToSave in
            (err, {| saved := done; asked_api := false; cached_after := None |})
          else populateFromApi host
      end
  end.

(** [ClientBase.init] (lines 87-102): the profile it sets, or the error it
    throws, and what it did. *)
Definition clientInit (host : Host) : returned ArenaProfile * Initialised :=
  if negb (present (bearerToken host))
  then (Throw "Arena bearer token not configured"%string,
        {| profile_written := None; populated := nothing |})
  else
    match fetchProfile host with
    | (Throw e, written) =>
        (Throw e, {| profile_written := written; populated := nothing |})
    | (Return None, written) =>
        (Throw "Failed to load profile"%string,
         {| profile_written := written; populated := nothing |})
    | (Return (Some profile), written) =>
        match populateTimeline host with
        | (Some e, p) =>
            (Throw e, {| profile_written := written; populated := p |})
        | (None, p) =>
            (Return profile, {| profile_written := written; populated := p |})
        end
    end.

End Timeline.

(** * The configuration (environment.ts) *)

(** [a || b] for two strings that may be [null] or [undefined]. *)
Definition orElse (a b : option jsstring) : option jsstring :=
  if present a then a else b.

(** A code unit that [[0-9a-f]] matches under the flag [i]. *)
Definition isHexDigit (c : N) : bool :=
  ((48 <=? c) && (c <=? 57) || (97 <=? c) && (c <=? 102)
   || (65 <=? c) && (c <=? 70))%N.

(** [[0-9a-f]{n}] at the head of [s]: what is left of [s] after it. *)
Fixpoint hexRun (n : nat) (s : jsstring) : option jsstring :=
  match n with
  | 0 => Some s
  | S n' =>
      match s with
      | c :: s' => if isHexDigit c then hexRun n' s' else None
      | [] => None
      end
  end.

(** [-[0-9a-f]{n}] at the head of [s]. *)
Definition dashHexRun (n : nat) (s : jsstring) : option jsstring :=
  match s with
  | c :: s' => if (c =? 45)%N then hexRun n s' else None
  | [] => None
  end.

(** Line 12: the test of
    [/^[0-9a-f]{8}-[0-9a-f]{4}-[0-9a-f]{4}-[0-9a-f]{4}-[0-9a-f]{12}$/i]. *)
Definition groupIdFormat (s : jsstring) : bool :=
  match hexRun 8 s with
  | Some s1 =>
      match dashHexRun 4 s1 with
      | Some s2 =>
          match dashHexRun 4 s2 with
          | Some s3 =>
              match dashHexRun 4 s3 with
              | Some s4 =>
                  match dashHexRun 12 s4 with
                  | Some [] => true
                  | _ => false
                  end
              | None => false
              end
          | None => false
          end
      | None => false
      end
  | None => false
  end.

(** The object that [validateArenaConfig] builds (lines 26-31); [None] is a
    value that is not a string ([null] or [undefined]). *)
Record RawConfig := {
  raw_ARENA_DRY_RUN : option jsstring;
  raw_TWITTER_USERNAME : option jsstring;
  raw_ARENA_BEARER_TOKEN : option jsstring;
  raw_ARENA_GROUP_ID : option jsstring
}.

(** [ArenaConfig], what the schema gives. *)
Record ArenaConfig := {
  ARENA_DRY_RUN : bool;
  TWITTER_USERNAME : jsstring;
  ARENA_BEARER_TOKEN : jsstring;
  ARENA_GROUP_ID : jsstring
}.

(** What [runtime.getSetting] answers for the four keys, and the four
    variables of [process.env] that the code reads. *)
Record Settings := {
  setting_ARENA_DRY_RUN : option jsstring;
  setting_TWITTER_USERNAME : option jsstring;
  setting_ARENA_BEARER_TOKEN : option jsstring;
  setting_ARENA_GROUP_ID : option jsstring
}.

Record ProcessEnv := {
  env_ARENA_DRY_RUN : option jsstring;
  env_TWITTER_USERNAME : option jsstring;
  env_ARENA_COOKIES : option jsstring;
  env_ARENA_GROUP_ID : option jsstring
}.

Section Config.

Variable toLowerCase : jsstring -> jsstring.

(** [arenaEnvSchema.parse] (lines 4-18): the parsed configuration, or [None]
    when it throws a [ZodError].  Every field has to be a string; then come
    the checks of the fields and, on the transformed object, the
    refinement. *)
Definition arenaEnvSchema (config : RawConfig) : option ArenaConfig :=
  match raw_ARENA_DRY_RUN config, raw_TWITTER_USERNAME config,
        raw_ARENA_BEARER_TOKEN config, raw_ARENA_GROUP_ID config with
  | Some dryRun, Some username, Some token, Some groupId =>
      let data :=
        {| ARENA_DRY_RUN := bool_decide (toLowerCase dryRun = units "true");
           TWITTER_USERNAME := username;
           ARENA_BEARER_TOKEN := token;
           ARENA_GROUP_ID := groupId |} in
      if (1 <=? length username)
         && (36 <=? length groupId) && (length groupId <=? 36)
         && groupIdFormat groupId
         && (present (Some (ARENA_BEARER_TOKEN data))
             || present (Some (ARENA_GROUP_ID data))
             || present (Some (TWITTER_USERNAME data))
             || ARENA_DRY_RUN data)
      then Some data
      else None
  | _, _, _, _ => None
  end.

(** [validateArenaConfig] (lines 22-42); [None] when it throws. *)
Definition validateArenaConfig (settings : Settings) (env : ProcessEnv)
    : option ArenaConfig :=
  arenaEnvSchema
    {| raw_ARENA_DRY_RUN :=
         orElse (setting_ARENA_DRY_RUN settings) (env_ARENA_DRY_RUN env);
       raw_TWITTER_USERNAME :=
         orElse (setting_TWITTER_USERNAME settings) (env_TWITTER_USERNAME env);
       raw_ARENA_BEARER_TOKEN :=
         orElse (setting_ARENA_BEARER_TOKEN settings) (env_ARENA_COOKIES env);
       raw_ARENA_GROUP_ID :=
         orElse (setting_ARENA_GROUP_ID settings) (env_ARENA_GROUP_ID env) |}.

End Config.

(** * More sample inputs *)

(** A server with two pages of notifications, one notification a page. *)
Definition twoPages (page : Z) : fetched (NotificationsResponse Z) :=
  Fetched {| notifications := Some [page]; numberOfPages := Count 2 |}.

(** A feed with one thread on each of its first two pages and none after. *)
Definition shortFeed (page : Z) : fetched (option (list Z)) :=
  Fetched (Some (if (page <=? 2)%Z then [page] else [])).

(** A lower-casing that leaves the text as it is (a text without capitals). *)
Definition lowered (s : jsstring) : jsstring := s.


(** A chat message of another user that is no reply. *)
Definition rudeMessage : Message :=
  {| userId := units "u1"; message := units "please stop it";
     replyId := None; reply := None |}.

Definition olderPost : PostHistory :=
  {| content := units "gm frens"; timestamp := 5 |}.

(** * Properties *)

(** ** Lists of wrappers *)

Lemma wrappers_app (p : nat) (a b : list op) :
  wrappers p (a ++ b) = wrappers p a ++ wrappers (p + length a) b.
Proof.
  revert p; induction a as [|r a IH]; intros p; simpl.
  - f_equal; lia.
  - rewrite IH. now replace (p + S (length a)) with (S p + length a) by lia.
Qed.

Lemma wrappers_length (p : nat) (rs : list op) :
  length (wrappers p rs) = length rs.
Proof. revert p; induction rs; intros; simpl; auto. Qed.

Lemma wrappers_lookup (p : nat) (rs : list op) (j : nat) (t : thunk) :
  wrappers p rs !! j = Some t ->
  exists r, rs !! j = Some r /\ t = wrapper r (p + j).
Proof.
  revert p j; induction rs as [|r rs IH]; intros p j; simpl; [discriminate|].
  destruct j as [|j]; simpl.
  - intros [= <-]. exists r. split; [reflexivity | f_equal; lia].
  - intros H. destruct (IH _ _ H) as (r' & Hr & ->).
    exists r'. split; [assumption | f_equal; lia].
Qed.

Lemma settle_pending (p : nat) (st : promise_state) (h : store) :
  promises h !! p = Some Pending ->
  settle p st h = {| promises := <[p := st]> (promises h);
                     settled := settled h ++ [p] |}.
Proof. intros H. unfold settle. rewrite H. reflexivity. Qed.

Lemma finish_wrapper (r : op) (p : nat) (o : outcome) (h : store) :
  finish (wrapper r p) o h = (settle p (promised o) h, Returned).
Proof. destruct o; reflexivity. Qed.

(** A wrapper determines its request and its promise: two wrappers with
    different promises act differently on a store where both are pending. *)
Lemma wrapper_inj (r r' : op) (p p' : nat) :
  wrapper r p = wrapper r' p' -> r = r' /\ p = p'.
Proof.
  intros H. split; [exact (f_equal request H)|].
  pose (h := {| promises := replicate (S (p + p')) Pending; settled := [] |}).
  assert (Hf : fst (finish (wrapper r p) (Ok 0%Z) h)
             = fst (finish (wrapper r' p') (Ok 0%Z) h)) by (rewrite H; reflexivity).
  rewrite !finish_wrapper in Hf. cbn [fst] in Hf.
  rewrite !settle_pending in Hf by (apply lookup_replicate_2; lia).
  apply (f_equal settled) in Hf. simpl in Hf. congruence.
Qed.

Lemma calls_app (a b : list obs) : calls (a ++ b) = calls a ++ calls b.
Proof. apply bind_app. Qed.

Lemma submitted_app (a b : list event) :
  submitted (a ++ b) = submitted a ++ submitted b.
Proof. apply bind_app. Qed.

Lemma drop_head {A} (l : list A) (k : nat) (x : A) (rest : list A) :
  drop k l = x :: rest -> l !! k = Some x /\ rest = drop (S k) l /\ k < length l.
Proof.
  intros H.
  assert (Hx : l !! k = Some x).
  { rewrite <- (Nat.add_0_r k), <- lookup_drop, H. reflexivity. }
  split; [assumption|]. split.
  - rewrite (drop_S _ _ _ Hx) in H. congruence.
  - eapply lookup_lt_Some; eassumption.
Qed.

Lemma wrappers_nil (p : nat) (rs : list op) : wrappers p rs = [] -> rs = [].
Proof. destruct rs; [reflexivity | discriminate]. Qed.

Lemma wrappers_cons (p : nat) (rs : list op) (t : thunk) (q : list thunk) :
  wrappers p rs = t :: q ->
  exists r rest, rs = r :: rest /\ t = wrapper r p /\ q = wrappers (S p) rest.
Proof.
  destruct rs as [|r rest]; simpl; [discriminate|].
  intros [= <- <-]. eauto.
Qed.

Lemma forallb_snoc {A} (f : A -> bool) (l : list A) (x : A) :
  forallb f l = true -> f x = true -> forallb f (l ++ [x]) = true.
Proof. intros Hl Hx. rewrite forallb_app, Hl. simpl. rewrite Hx. reflexivity. Qed.

Section Reachable.

Variable random : nat -> Q.

Lemma run_app (evs1 evs2 : list event) (s : state) :
  run random (evs1 ++ evs2) s = run random evs2 (run random evs1 s).
Proof. apply fold_left_app. Qed.

Lemma run_snoc (evs : list event) (ev : event) (s : state) :
  run random (evs ++ [ev]) s = step random ev (run random evs s).
Proof. apply run_app. Qed.

(** ** The invariant holds in every reachable state *)

Lemma inv_init : inv [] init.
Proof.
  constructor; simpl; auto; intros; lia.
Qed.

Lemma step_inv (subs : list op) (s : state) (ev : event) :
  inv subs s -> inv (subs ++ submitted [ev]) (step random ev s).
Proof.
  intros [Hl Hle Hp Hc Hs Hd Ht Hq Hcl].
  set (k := length (settled (heap s))) in *.
  destruct ev as [r | i o | i]; simpl submitted; rewrite ?app_nil_r.
  - (* add *)
    unfold step, add, processQueue, pending, executing in *. simpl.
    destruct (loops s) as [|c [|c' l]] eqn:El; [| |contradiction].
    + destruct Hl as [Hpr Hqu]. rewrite Hpr, Hqu in *. simpl in *.
      symmetry in Hp. apply wrappers_nil in Hp.
      assert (Hk : k = length subs).
      { apply (f_equal length) in Hp. rewrite length_drop in Hp. simpl in Hp. lia. }
      unfold while_loop; simpl; constructor; unfold pending, executing; simpl; rewrite ?El; simpl; fold k.
      * auto.
      * rewrite length_app. simpl. lia.
      * rewrite drop_app_length', Hc by lia. rewrite Hk. reflexivity.
      * rewrite !length_app. simpl. lia.
      * assumption.
      * intros p Hlt. rewrite lookup_app_l by lia. auto.
      * intros p Hlt. rewrite length_app in Hlt. simpl in Hlt.
        assert (p = length (promises (heap s))) as -> by lia.
        rewrite lookup_app_r by lia. rewrite Nat.sub_diag. reflexivity.
      * apply forallb_snoc; auto.
      * rewrite calls_app, Hcl. simpl.
        rewrite !take_ge by (rewrite ?length_app; simpl; lia). reflexivity.
    + destruct Hl as [Hpr Hb]. rewrite Hpr. simpl.
      assert (Hlen : k + length (inflight c) <= length subs).
      { apply (f_equal length) in Hp. rewrite wrappers_length, length_drop in Hp.
        simpl in Hp. rewrite app_nil_r, length_app in Hp. lia. }
      constructor; unfold pending, executing; simpl; rewrite ?El; simpl; fold k.
      * auto.
      * rewrite length_app. simpl. lia.
      * rewrite drop_app_le by lia. rewrite wrappers_app, <- Hp.
        rewrite length_drop. rewrite app_assoc.
        now replace (k + (length subs - k)) with (length (promises (heap s))) by lia.
      * rewrite !length_app. simpl. lia.
      * assumption.
      * intros p Hlt. rewrite lookup_app_l by lia. auto.
      * intros p Hlt. rewrite length_app in Hlt. simpl in Hlt.
        destruct (decide (p < length subs)).
        -- rewrite lookup_app_l by lia. apply Ht. lia.
        -- assert (p = length (promises (heap s))) as -> by lia.
           rewrite lookup_app_r by lia. rewrite Nat.sub_diag. reflexivity.
      * assumption.
      * rewrite app_nil_r in *. rewrite take_app_le by lia.
        rewrite Hcl. simpl. rewrite app_nil_r. reflexivity.
  - (* the awaited request settles *)
    unfold step.
    destruct (loops s) as [|c [|c' l]] eqn:El; [| |contradiction].
    { simpl. constructor; rewrite ?El; auto. }
    destruct i as [|i]; simpl;
      [|constructor; rewrite ?El; auto].
    destruct c as [t | ms | ms];
      [|constructor; rewrite ?El; auto..].
    destruct Hl as [Hpr _].
    unfold pending, executing in Hp. rewrite El in Hp. simpl in Hp.
    symmetry in Hp. apply wrappers_cons in Hp as (r & rest & Hdrop & -> & Hqu).
    apply drop_head in Hdrop as (Hr & -> & Hlt).
    unfold after_request. rewrite finish_wrapper.
    rewrite settle_pending by (apply Ht; lia).
    unfold pace; simpl.
    constructor; unfold pending, executing; simpl; rewrite ?length_app; simpl; fold k;
      replace (k + 1) with (S k) by lia.
    + auto.
    + lia.
    + assumption.
    + rewrite length_insert. assumption.
    + rewrite seq_S, <- Hs. reflexivity.
    + intros p Hp. destruct (decide (p = k)) as [->|Hne].
      * exists (promised o). rewrite list_lookup_insert_eq by lia.
        split; [reflexivity | destruct o; discriminate].
      * rewrite list_lookup_insert_ne by lia. apply Hd. lia.
    + intros p Hp. rewrite list_lookup_insert_ne by lia. apply Ht. lia.
    + apply forallb_snoc; auto.
    + rewrite calls_app, Hcl. unfold executing. rewrite El. simpl.
      rewrite app_nil_r. f_equal; lia.
  - (* a timer fires *)
    unfold step.
    destruct (loops s) as [|c [|c' l]] eqn:El; [| |contradiction].
    { simpl. constructor; rewrite ?El; auto. }
    destruct i as [|i]; simpl;
      [|constructor; rewrite ?El; auto].
    destruct Hl as [Hpr Hb].
    destruct c as [t | ms | ms]; [constructor; rewrite ?El; auto | discriminate |].
    unfold pending, executing in Hp, Hcl. rewrite El in Hp, Hcl. simpl in Hp, Hcl.
    unfold while_loop; simpl.
    destruct (queue s) as [|t q] eqn:Eq; simpl.
    + constructor; unfold pending, executing; simpl; rewrite ?Eq; auto.
    + symmetry in Hp. apply wrappers_cons in Hp as (r & rest & Hdrop & -> & Hqu).
      apply drop_head in Hdrop as (Hr & -> & Hlt).
      constructor; unfold pending, executing; simpl; fold k; auto.
      * rewrite Hqu, (drop_S _ _ _ Hr). reflexivity.
      * apply forallb_snoc; auto.
      * rewrite calls_app, Hcl. simpl.
        rewrite Nat.add_0_r. replace (k + 1) with (S k) by lia.
        symmetry. apply take_S_r. assumption.
Qed.

Lemma run_inv (evs : list event) :
  inv (submitted evs) (run random evs init).
Proof.
  induction evs as [|ev evs IH] using rev_ind.
  - apply inv_init.
  - rewrite run_snoc, submitted_app. apply step_inv. assumption.
Qed.

Lemma run_inv_from (subs : list op) (s : state) (evs : list event) :
  inv subs s -> inv (subs ++ submitted evs) (run random evs s).
Proof.
  revert subs s. induction evs as [|ev evs IH]; intros subs s H.
  - simpl. rewrite app_nil_r. assumption.
  - change (run random (ev :: evs) s) with (run random evs (step random ev s)).
    rewrite (submitted_app [ev] evs : submitted (ev :: evs) = _), app_assoc.
    apply IH, step_inv, H.
Qed.

(** ** What a reachable state looks like at [await request()] *)

Lemma inv_single (subs : list op) (s : state) :
  inv subs s -> length (loops s) <= 1.
Proof.
  intros H. pose proof (inv_loops _ _ H) as Hl.
  destruct (loops s) as [|c [|c' l]]; simpl; try lia; contradiction.
Qed.

Lemma inv_awaiting (subs : list op) (s : state) (i : nat) (t : thunk) :
  inv subs s ->
  loops s !! i = Some (AwaitRequest t) ->
  i = 0 /\ loops s = [AwaitRequest t] /\
  exists r, t = wrapper r (length (settled (heap s)))
    /\ subs !! length (settled (heap s)) = Some r
    /\ promises (heap s) !! length (settled (heap s)) = Some Pending
    /\ queue s = wrappers (S (length (settled (heap s))))
                          (drop (S (length (settled (heap s)))) subs).
Proof.
  intros H Hi. pose proof (inv_loops _ _ H) as Hl.
  pose proof (inv_pending _ _ H) as Hp. unfold pending, executing in Hp.
  destruct (loops s) as [|c [|c' l]] eqn:El; [discriminate | | contradiction].
  destruct i as [|i]; [|discriminate]. simpl in Hi. injection Hi as ->.
  split; [reflexivity|]. split; [reflexivity|].
  simpl in Hp. symmetry in Hp.
  apply wrappers_cons in Hp as (r & rest & Hdrop & -> & Hqu).
  apply drop_head in Hdrop as (Hr & -> & Hlt).
  exists r. repeat split; auto.
  apply (inv_todo _ _ H). lia.
Qed.

(** The state after the request of a wrapper has settled. *)
Lemma step_settle (s : state) (r : op) (o : outcome) :
  loops s = [AwaitRequest (wrapper r (length (settled (heap s))))] ->
  promises (heap s) !! length (settled (heap s)) = Some Pending ->
  step random (Settle 0 o) s =
  {| queue := queue s; processing := processing s;
     loops := [AwaitPacing (randomDelay (random (draws s)))];
     heap := {| promises := <[length (settled (heap s)) := promised o]> (promises (heap s));
                settled := settled (heap s) ++ [length (settled (heap s))] |};
     draws := S (draws s);
     trace := trace s ++ [Pacing (randomDelay (random (draws s)))] |}.
Proof.
  intros El Hp. unfold step. rewrite El. simpl.
  unfold after_request. simpl heap. rewrite finish_wrapper, settle_pending by assumption.
  reflexivity.
Qed.

(** A promise that has settled keeps its state. *)
Lemma step_keeps (subs : list op) (s : state) (ev : event)
    (p : nat) (st : promise_state) :
  inv subs s ->
  promises (heap s) !! p = Some st -> st <> Pending ->
  promises (heap (step random ev s)) !! p = Some st.
Proof.
  intros H Hp Hst. destruct ev as [r | i o | i].
  - unfold step, add, processQueue. simpl.
    assert (Hlt : p < length (promises (heap s))) by (eapply lookup_lt_Some; eauto).
    destruct (processing s); simpl.
    + rewrite lookup_app_l by lia. assumption.
    + unfold while_loop. simpl. destruct (queue s); simpl;
        rewrite lookup_app_l by lia; assumption.
  - destruct (loops s !! i) as [[t|ms|ms]|] eqn:Ei;
      [|unfold step; rewrite Ei; assumption..].
    destruct (inv_awaiting _ _ _ _ H Ei) as (-> & El & r & -> & _ & Hk & _).
    rewrite (step_settle _ _ _ El Hk). simpl.
    rewrite list_lookup_insert_ne; [assumption | congruence].
  - unfold step. destruct (loops s !! i) as [[t|ms|ms]|]; try assumption.
    unfold while_loop. simpl. destruct (queue s); assumption.
Qed.

Lemma run_keeps (subs : list op) (s : state) (evs : list event)
    (p : nat) (st : promise_state) :
  inv subs s ->
  promises (heap s) !! p = Some st -> st <> Pending ->
  promises (heap (run random evs s)) !! p = Some st.
Proof.
  revert subs s. induction evs as [|ev evs IH]; intros subs s H Hp Hst.
  - assumption.
  - change (run random (ev :: evs) s) with (run random evs (step random ev s)).
    eapply IH; eauto using step_inv, step_keeps.
Qed.

(** Every entry not yet finished has a pending promise. *)
Lemma inv_pending_promise (subs : list op) (s : state) (t : thunk) :
  inv subs s -> t ∈ pending s ->
  exists r p, t = wrapper r p /\ promises (heap s) !! p = Some Pending.
Proof.
  intros H Ht. rewrite (inv_pending _ _ H) in Ht.
  apply list_elem_of_lookup in Ht as [j Hj].
  apply wrappers_lookup in Hj as (r & Hr & ->).
  exists r, (length (settled (heap s)) + j). split; [reflexivity|].
  apply (inv_todo _ _ H). rewrite lookup_drop in Hr.
  apply lookup_lt_Some in Hr. lia.
Qed.

(** ** The wrapper never throws *)


(** ** A request that throws *)

(** C4.  When the request of a submitted operation throws at its execution,
    the caller's promise is rejected with that error there and then; the
    entry is not put back (the queue is as it was, and the entry is never
    again queued or running); the loop sets the pacing timer and nothing
    else (no [console.error], no backoff), and when that timer fires it
    calls the head of the queue, or stops if the queue is empty. *)
Theorem failed_request_is_rejected_and_dropped
    (evs : list event) (i : nat) (t : thunk) (e : error) :
  loops (run random evs init) !! i = Some (AwaitRequest t) ->
  exists r p,
    t = wrapper r p /\
    let s := run random evs init in
    let s1 := step random (Settle i (Err e)) s in
    let s2 := step random (Timer 0) s1 in
    let ms := randomDelay (random (draws s)) in
    promises (heap s1) !! p = Some (Rejected e)
    /\ queue s1 = queue s
    /\ loops s1 = [AwaitPacing ms]
    /\ trace s1 = trace s ++ [Pacing ms]
    /\ match queue s with
       | [] => loops s2 = [] /\ processing s2 = false /\ trace s2 = trace s1
       | t' :: q => loops s2 = [AwaitRequest t'] /\ queue s2 = q
                    /\ trace s2 = trace s1 ++ [Called (request t')]
       end
    /\ forall evs',
         promises (heap (run random evs' s1)) !! p = Some (Rejected e)
         /\ wrapper r p ∉ pending (run random evs' s1).
Proof.
  intros Hi. pose proof (run_inv evs) as H.
  set (s := run random evs init) in *.
  destruct (inv_awaiting _ _ _ _ H Hi) as (-> & El & r & -> & _ & Hk & _).
  set (k := length (settled (heap s))) in *.
  exists r, k. split; [reflexivity|]. cbv zeta.
  pose proof (step_inv _ _ (Settle 0 (Err e)) H) as H1.
  rewrite (step_settle _ _ _ El Hk) in *. fold k in H1 |- *.
  set (s1 := {| queue := queue s |}) in *.
  assert (Hrej : promises (heap s1) !! k = Some (Rejected e)).
  { simpl. apply list_lookup_insert_eq. eapply lookup_lt_Some; eassumption. }
  repeat split; try reflexivity; try assumption.
  - unfold step, while_loop. simpl. destruct (queue s); simpl; auto.
  - eapply run_keeps; eauto; discriminate.
  - intros Hin.
    pose proof (run_inv_from _ _ evs' H1) as H3.
    destruct (inv_pending_promise _ _ _ H3 Hin) as (r' & p' & Heq & Hpend).
    apply wrapper_inj in Heq as [_ <-].
    assert (Hk3 : promises (heap (run random evs' s1)) !! k = Some (Rejected e))
      by (eapply run_keeps; eauto; discriminate).
    congruence.
Qed.

(** ** One drain loop *)

Lemma step_timer_pacing (s : state) (ms : Z) :
  loops s = [AwaitPacing ms] ->
  step random (Timer 0) s =
  match queue s with
  | [] => {| queue := []; processing := false; loops := [];
             heap := heap s; draws := draws s; trace := trace s |}
  | t :: q => {| queue := q; processing := processing s;
                 loops := [AwaitRequest t];
                 heap := heap s; draws := draws s;
                 trace := trace s ++ [Called (request t)] |}
  end.
Proof.
  intros El. unfold step, while_loop. rewrite El. simpl.
  destruct (queue s) eqn:Eq; unfold set_processing, park, emit; simpl;
    rewrite ?Eq; reflexivity.
Qed.

Lemma add_heap (r : op) (s : state) :
  heap (step random (Add r) s)
  = {| promises := promises (heap s) ++ [Pending]; settled := settled (heap s) |}.
Proof.
  unfold step, add, processQueue, while_loop. simpl.
  destruct (processing s); simpl; [reflexivity|].
  destruct (length _ =? 0); [reflexivity|].
  destruct (queue s ++ _); reflexivity.
Qed.

(** [add] on a state whose flag is set: the entry goes to the tail and
    nothing else moves. *)
Lemma add_while_processing (r : op) (s : state) :
  processing s = true ->
  step random (Add r) s =
  {| queue := queue s ++ [wrapper r (length (promises (heap s)))];
     processing := true; loops := loops s;
     heap := {| promises := promises (heap s) ++ [Pending];
                settled := settled (heap s) |};
     draws := draws s; trace := trace s |}.
Proof.
  intros Hp. unfold step, add, processQueue. simpl. rewrite Hp. simpl.
  unfold set_queue, set_heap. simpl. rewrite Hp. reflexivity.
Qed.

(** [add] on an idle state: a new activation starts and calls the entry. *)
Lemma add_while_idle (r : op) (s : state) :
  processing s = false -> queue s = [] ->
  step random (Add r) s =
  {| queue := []; processing := true;
     loops := loops s ++ [AwaitRequest (wrapper r (length (promises (heap s))))];
     heap := {| promises := promises (heap s) ++ [Pending];
                settled := settled (heap s) |};
     draws := draws s; trace := trace s ++ [Called r] |}.
Proof.
  intros Hp Hq. unfold step, add, processQueue. simpl. rewrite Hp, Hq. reflexivity.
Qed.

Lemma inv_progress (subs : list op) (s : state) :
  inv subs s ->
  length (settled (heap s)) + length (pending s) = length subs.
Proof.
  intros H. rewrite (inv_pending _ _ H), wrappers_length, length_drop.
  pose proof (inv_le _ _ H). lia.
Qed.

(** Left to itself, a loop that is executing an entry gets to the entry [j]
    places behind it after [j] rounds, whatever the requests do. *)
Lemma drive_reaches (subs : list op) (outs : list outcome) :
  forall (s : state) (c t : thunk),
    inv subs s ->
    loops s = [AwaitRequest c] ->
    pending s !! length outs = Some t ->
    loops (run random (drive outs) s) = [AwaitRequest t].
Proof.
  induction outs as [|o outs IH]; intros s c t H El Ht.
  - unfold pending, executing in Ht. rewrite El in Ht. simpl in Ht.
    injection Ht as <-. assumption.
  - assert (Hi : loops s !! 0 = Some (AwaitRequest c)) by (rewrite El; reflexivity).
    destruct (inv_awaiting _ _ _ _ H Hi) as (_ & _ & r & -> & _ & Hk & _).
    change (run random (drive (o :: outs)) s)
      with (run random (drive outs)
              (step random (Timer 0) (step random (Settle 0 o) s))).
    set (s1 := step random (Settle 0 o) s).
    assert (H1 : inv subs s1).
    { pose proof (step_inv _ _ (Settle 0 o) H) as H1.
      simpl in H1. rewrite app_nil_r in H1. exact H1. }
    assert (El1 : loops s1 = [AwaitPacing (randomDelay (random (draws s)))])
      by (unfold s1; rewrite (step_settle _ _ _ El Hk); reflexivity).
    assert (Eq1 : queue s1 = queue s)
      by (unfold s1; rewrite (step_settle _ _ _ El Hk); reflexivity).
    set (s2 := step random (Timer 0) s1).
    assert (H2 : inv subs s2).
    { pose proof (step_inv _ _ (Timer 0) H1) as H2.
      simpl in H2. rewrite app_nil_r in H2. exact H2. }
    unfold pending, executing in Ht. rewrite El in Ht. simpl in Ht.
    destruct (queue s) as [|t' q] eqn:Eq; [discriminate|].
    assert (Es2 : loops s2 = [AwaitRequest t'] /\ queue s2 = q).
    { unfold s2. rewrite (step_timer_pacing _ _ El1), Eq1. auto. }
    destruct Es2 as [El2 Eq2].
    eapply IH; [exact H2 | exact El2 |].
    unfold pending, executing. rewrite El2, Eq2. exact Ht.
Qed.

(** C5.  In every state the class can reach at most one activation of
    [processQueue] exists, so at most one entry is executing.  A call of
    [add] while the flag is set starts no activation: it appends the wrapper
    to the queue and leaves the rest as it is; and the loop that is active
    comes to call that wrapper once the entries ahead of it are through,
    however their requests settle. *)
Theorem single_drain_loop (evs : list event) (r : op) (outs : list outcome) :
  let s := run random evs init in
  let s' := step random (Add r) s in
  let w := wrapper r (length (promises (heap s))) in
  length (loops s) <= 1
  /\ length (executing s) <= 1
  /\ (processing s = true ->
      loops s' = loops s
      /\ queue s' = queue s ++ [w]
      /\ (length outs = length (pending s) ->
          loops (run random (wake s ++ drive outs) s') = [AwaitRequest w])).
Proof.
  intros s s' w. pose proof (run_inv evs) as H. fold s in H.
  pose proof (inv_loops _ _ H) as Hl.
  split; [exact (inv_single _ _ H)|]. split.
  { unfold executing. destruct (loops s) as [|c [|c' l]]; [simpl; lia | | contradiction].
    destruct c; simpl; lia. }
  intros Hp.
  pose proof (step_inv _ _ (Add r) H) as H'. fold s' in H'. simpl submitted in H'.
  assert (Es' : s' = _) by exact (add_while_processing r s Hp).
  split; [rewrite Es'; reflexivity|]. split; [rewrite Es'; reflexivity|].
  intros Hlen.
  destruct (loops s) as [|c [|c' l]] eqn:El; [|clear Hl|contradiction].
  { destruct Hl; congruence. }
  assert (Hex : pending s' = pending s ++ [w]).
  { unfold pending, executing. rewrite Es'. simpl. rewrite El. simpl.
    rewrite !app_nil_r, app_assoc. reflexivity. }
  pose proof (inv_loops _ _ H) as Hb. rewrite El in Hb. destruct Hb as [_ Hb].
  unfold wake. rewrite El.
  destruct c as [c | ms | ms]; [| discriminate |].
  - simpl app. eapply drive_reaches; [exact H' | rewrite Es'; reflexivity |].
    rewrite Hex, Hlen. apply list_lookup_middle. reflexivity.
  - change (run random ([Timer 0] ++ drive outs) s')
      with (run random (drive outs) (step random (Timer 0) s')).
    pose proof (step_inv _ _ (Timer 0) H') as H2.
    simpl submitted in H2. rewrite app_nil_r in H2.
    assert (El' : loops s' = [AwaitPacing ms]) by (rewrite Es'; reflexivity).
    unfold pending, executing in Hex, Hlen. rewrite El', El in *.
    simpl in Hex, Hlen.
    rewrite (step_timer_pacing _ _ El') in *.
    rewrite Hex in *.
    destruct (queue s) as [|t q] eqn:Eq; simpl app in *; cbv iota in *.
    + destruct outs; [|discriminate]. reflexivity.
    + eapply drive_reaches; [exact H2 | reflexivity |].
      unfold pending, executing. simpl. rewrite Hlen.
      apply (list_lookup_middle (t :: q) [] w). reflexivity.
Qed.

(** C10.  When the pacing timer fires on an empty queue the loop ends and
    clears the flag; and in every reachable state with the flag clear, a
    call of [add] alone sets the flag, starts an activation and calls the
    new request. *)
Theorem restart_after_drain (evs : list event) (r : op) :
  let s := run random evs init in
  (forall ms, loops s = [AwaitPacing ms] -> queue s = [] ->
     processing (step random (Timer 0) s) = false
     /\ loops (step random (Timer 0) s) = []
     /\ queue (step random (Timer 0) s) = [])
  /\ (processing s = false ->
      let s' := step random (Add r) s in
      processing s' = true
      /\ loops s' = [AwaitRequest (wrapper r (length (promises (heap s))))]
      /\ queue s' = []
      /\ trace s' = trace s ++ [Called r]).
Proof.
  intros s. pose proof (run_inv evs) as H. fold s in H.
  split.
  - intros ms El Eq. rewrite (step_timer_pacing _ _ El), Eq. auto.
  - intros Hp. pose proof (inv_loops _ _ H) as Hl.
    destruct (loops s) as [|c [|c' l]] eqn:El; [| |contradiction].
    + destruct Hl as [_ Hq]. cbv zeta.
      rewrite (add_while_idle r s Hp Hq). simpl. rewrite El. auto.
    + destruct Hl; congruence.
Qed.

(** What [add] does to the entries not yet finished: the new wrapper comes
    last. *)
Lemma pending_add (subs : list op) (s : state) (r : op) :
  inv subs s ->
  pending (step random (Add r) s)
  = pending s ++ [wrapper r (length (promises (heap s)))].
Proof.
  intros H. pose proof (step_inv _ _ (Add r) H) as H'. simpl submitted in H'.
  rewrite (inv_pending _ _ H'), (inv_pending _ _ H), add_heap. simpl.
  pose proof (inv_le _ _ H) as Hle.
  rewrite drop_app_le, wrappers_app, length_drop by lia.
  rewrite <- (inv_count _ _ H).
  replace (length (settled (heap s))
           + (length (promises (heap s)) - length (settled (heap s))))
    with (length (promises (heap s)))
    by (rewrite (inv_count _ _ H); lia).
  reflexivity.
Qed.

Lemma drive_drains (subs : list op) (outs : list outcome) :
  forall (s : state) (c : thunk),
    inv subs s ->
    loops s = [AwaitRequest c] ->
    length outs = length (pending s) ->
    let s' := run random (drive outs) s in
    loops s' = [] /\ processing s' = false /\ queue s' = []
    /\ inv subs s'
    /\ forall j o, outs !! j = Some o ->
         promises (heap s') !! (length (settled (heap s)) + j)
         = Some (promised o).
Proof.
  induction outs as [|o outs IH]; intros s c H El Hlen.
  { unfold pending, executing in Hlen. rewrite El in Hlen. discriminate. }
  assert (Hi : loops s !! 0 = Some (AwaitRequest c)) by (rewrite El; reflexivity).
  destruct (inv_awaiting _ _ _ _ H Hi) as (_ & _ & r & -> & _ & Hk & _).
  cbv zeta.
  change (run random (drive (o :: outs)) s)
    with (run random (drive outs)
            (step random (Timer 0) (step random (Settle 0 o) s))).
  set (k := length (settled (heap s))) in *.
  set (s1 := step random (Settle 0 o) s).
  assert (E1 : s1 = _) by exact (step_settle s r o El Hk).
  assert (H1 : inv subs s1).
  { pose proof (step_inv _ _ (Settle 0 o) H) as H1.
    simpl in H1. rewrite app_nil_r in H1. exact H1. }
  assert (El1 : loops s1 = [AwaitPacing (randomDelay (random (draws s)))])
    by (rewrite E1; reflexivity).
  assert (Eq1 : queue s1 = queue s) by (rewrite E1; reflexivity).
  assert (Ek1 : length (settled (heap s1)) = S k).
  { rewrite E1. simpl. rewrite length_app. simpl. fold k. lia. }
  assert (Hp1 : promises (heap s1) !! k = Some (promised o)).
  { rewrite E1. simpl. apply list_lookup_insert_eq.
    eapply lookup_lt_Some; eassumption. }
  assert (Hne : promised o <> Pending) by (destruct o; discriminate).
  set (s2 := step random (Timer 0) s1).
  assert (H2 : inv subs s2).
  { pose proof (step_inv _ _ (Timer 0) H1) as H2.
    simpl in H2. rewrite app_nil_r in H2. exact H2. }
  assert (E2 : s2 = _) by exact (step_timer_pacing s1 _ El1).
  assert (Eh2 : heap s2 = heap s1).
  { rewrite E2. destruct (queue s1); reflexivity. }
  unfold pending, executing in Hlen. rewrite El in Hlen. simpl in Hlen.
  destruct (queue s) as [|t q] eqn:Eq.
  - destruct outs; [|discriminate]. simpl run.
    rewrite Eq1 in E2.
    assert (E2' : s2 = {| queue := []; processing := false; loops := [];
                          heap := heap s1; draws := draws s1;
                          trace := trace s1 |}) by exact E2.
    split; [rewrite E2'; reflexivity|]. split; [rewrite E2'; reflexivity|].
    split; [rewrite E2'; reflexivity|]. split; [exact H2|].
    intros j o' Hj. destruct j as [|j]; [|discriminate].
    injection Hj as <-. rewrite Nat.add_0_r, Eh2. exact Hp1.
  - rewrite Eq1 in E2.
    assert (El2 : loops s2 = [AwaitRequest t]) by (rewrite E2; reflexivity).
    assert (Eq2 : queue s2 = q) by (rewrite E2; reflexivity).
    assert (Hlen2 : length outs = length (pending s2)).
    { unfold pending, executing. rewrite El2, Eq2. simpl in *. lia. }
    destruct (IH s2 t H2 El2 Hlen2) as (A & B & C & D & E).
    split; [exact A|]. split; [exact B|]. split; [exact C|]. split; [exact D|].
    intros j o' Hj. destruct j as [|j].
    + injection Hj as <-. rewrite Nat.add_0_r.
      eapply run_keeps; [exact H2 | rewrite Eh2; exact Hp1 | exact Hne].
    + simpl in Hj. specialize (E j o' Hj).
      rewrite Eh2, Ek1 in E.
      replace (k + S j) with (S k + j) by lia. exact E.
Qed.

(** From any state that satisfies the invariant the loop drains the queue
    once the requests still pending have settled and the timers fired. *)
Lemma drain_all (subs : list op) (s : state) (outs : list outcome) :
  inv subs s ->
  length outs = length (pending s) ->
  let s' := run random (wake s ++ drive outs) s in
  loops s' = [] /\ processing s' = false /\ queue s' = []
  /\ inv subs s'
  /\ forall j o, outs !! j = Some o ->
       promises (heap s') !! (length (settled (heap s)) + j)
       = Some (promised o).
Proof.
  intros H Hlen s'.
  pose proof (inv_loops _ _ H) as Hl.
  unfold s', wake. unfold pending, executing in Hlen.
  destruct (loops s) as [|c [|c' l]] eqn:El; [| |contradiction].
  - destruct Hl as [Hpr Hq]. rewrite Hq in Hlen.
    destruct outs; [|discriminate]. simpl.
    split; [exact El|]. split; [exact Hpr|]. split; [exact Hq|].
    split; [exact H|]. intros j o Hj. discriminate.
  - destruct Hl as [Hpr Hb]. destruct c as [c | ms | ms]; [| discriminate |].
    + simpl app. apply (drive_drains _ outs s c H El).
      unfold pending, executing. rewrite El. exact Hlen.
    + change (run random ([Timer 0] ++ drive outs) s)
        with (run random (drive outs) (step random (Timer 0) s)).
      set (s2 := step random (Timer 0) s).
      assert (H2 : inv subs s2).
      { pose proof (step_inv _ _ (Timer 0) H) as H2.
        simpl in H2. rewrite app_nil_r in H2. exact H2. }
      assert (E2 : s2 = _) by exact (step_timer_pacing s _ El).
      simpl in Hlen.
      destruct (queue s) as [|t q] eqn:Eq.
      * destruct outs; [|discriminate]. simpl run.
        assert (E2' : s2 = {| queue := []; processing := false; loops := [];
                              heap := heap s; draws := draws s;
                              trace := trace s |}) by exact E2.
        split; [rewrite E2'; reflexivity|]. split; [rewrite E2'; reflexivity|].
        split; [rewrite E2'; reflexivity|]. split; [exact H2|].
        intros j o Hj. discriminate.
      * assert (El2 : loops s2 = [AwaitRequest t]) by (rewrite E2; reflexivity).
        assert (Eq2 : queue s2 = q) by (rewrite E2; reflexivity).
        assert (Eh2 : heap s2 = heap s) by (rewrite E2; reflexivity).
        destruct (drive_drains _ outs s2 t H2 El2) as (A & B & C & D & E).
        { unfold pending, executing. rewrite El2, Eq2. simpl in *. lia. }
        rewrite Eh2 in E. auto.
Qed.

(** In a state without a loop every submitted request has been called and
    every promise has settled. *)
Lemma inv_drained (subs : list op) (s : state) :
  inv subs s -> loops s = [] ->
  calls (trace s) = subs /\ length (settled (heap s)) = length subs.
Proof.
  intros H El. pose proof (inv_progress _ _ H) as Hp.
  pose proof (inv_loops _ _ H) as Hl.
  rewrite (inv_calls _ _ H).
  unfold pending, executing in *. rewrite El in *. destruct Hl as [_ Hq].
  rewrite Hq in Hp. simpl in *. split; [apply take_ge|]; lia.
Qed.

(** ** The promise returned by [add] *)

(** C1, at a request that throws.  The promise that [add] returns is a new
    one, pending, and the entry pushed for it comes last; it stays pending
    as long as that entry is queued or running.  When the request of that
    entry throws, at its first execution, the promise is rejected with the
    error, and it stays rejected whatever happens next: the error does
    reach the caller. *)
Theorem add_promise_rejects_on_failure (evs : list event) (r : op) (e : error) :
  let s := run random evs init in
  let p := fst (add r s) in
  let s1 := snd (add r s) in
  promises (heap s) !! p = None
  /\ promises (heap s1) !! p = Some Pending
  /\ last (pending s1) = Some (wrapper r p)
  /\ (forall evs1, wrapper r p ∈ pending (run random evs1 s1) ->
        promises (heap (run random evs1 s1)) !! p = Some Pending)
  /\ (forall evs1 i evs2,
        loops (run random evs1 s1) !! i = Some (AwaitRequest (wrapper r p)) ->
        promises (heap (run random evs2
                          (step random (Settle i (Err e))
                             (run random evs1 s1)))) !! p
        = Some (Rejected e))
  /\ promises (heap (run random [Add r; Settle 0 (Err e)] init))
     = [Rejected e].
Proof.
  intros s p s1. pose proof (run_inv evs) as H. fold s in H.
  assert (Ep : p = length (promises (heap s))) by reflexivity.
  assert (H1 : inv (submitted evs ++ [r]) s1)
    by exact (step_inv _ _ (Add r) H).
  assert (Eh : heap s1 = _) by exact (add_heap r s).
  split; [apply lookup_ge_None; lia|].
  split; [rewrite Eh, Ep; simpl; apply list_lookup_middle; reflexivity|].
  split.
  { change s1 with (step random (Add r) s).
    rewrite (pending_add _ _ r H), last_snoc, Ep. reflexivity. }
  split; [|split; [|reflexivity]].
  - intros evs1 Hin.
    pose proof (run_inv_from _ _ evs1 H1) as H2.
    destruct (inv_pending_promise _ _ _ H2 Hin) as (r' & p' & Heq & Hpend).
    apply wrapper_inj in Heq as [_ <-]. exact Hpend.
  - intros evs1 i evs2 Hi.
    pose proof (run_inv_from _ _ evs1 H1) as H2.
    set (s2 := run random evs1 s1) in *.
    destruct (inv_awaiting _ _ _ _ H2 Hi) as (-> & El & r' & Heq & _ & Hk & _).
    apply wrapper_inj in Heq as [<- Heq]. rewrite Heq in *.
    eapply run_keeps.
    + exact (step_inv _ _ (Settle 0 (Err e)) H2).
    + rewrite (step_settle _ _ _ El Hk). simpl.
      apply list_lookup_insert_eq. eapply lookup_lt_Some; eassumption.
    + discriminate.
Qed.

(** ** Order *)

Lemma step_not_rejected (subs : list op) (s : state) (ev : event) :
  inv subs s -> succeeds ev = true ->
  Forall not_rejected (promises (heap s)) ->
  Forall not_rejected (promises (heap (step random ev s))).
Proof.
  intros H Hev Hs. destruct ev as [r | i o | i].
  - rewrite add_heap. simpl. apply Forall_app. split; [assumption|].
    repeat constructor. intros e; discriminate.
  - destruct (loops s !! i) as [[t|ms|ms]|] eqn:Ei;
      [|unfold step; rewrite Ei; assumption..].
    destruct (inv_awaiting _ _ _ _ H Ei) as (-> & El & r & -> & _ & Hk & _).
    rewrite (step_settle _ _ _ El Hk). simpl.
    apply Forall_insert; [assumption|].
    destruct o; [intros e; discriminate | discriminate].
  - unfold step. destruct (loops s !! i) as [[t|ms|ms]|]; try assumption.
    unfold while_loop. simpl. destruct (queue s); assumption.
Qed.

Lemma run_not_rejected (evs : list event) :
  forallb succeeds evs = true ->
  Forall not_rejected (promises (heap (run random evs init))).
Proof.
  induction evs as [|ev evs IH] using rev_ind; intros Hev.
  - constructor.
  - rewrite forallb_app in Hev. apply andb_prop in Hev as [Hevs Hev].
    simpl in Hev. rewrite andb_true_r in Hev.
    rewrite run_snoc. eapply step_not_rejected; eauto using run_inv.
Qed.

(** C6.  When no request of a run throws, the promises are resolved in the
    order in which their requests were submitted: the [n]-th call of [add]
    returns the [n]-th promise, the promises settled so far are the first
    ones in that order, each of them is fulfilled, and the requests called
    so far are the first ones submitted, in order.  The two mechanisms
    behind it: [add] puts the new entry behind every entry not yet
    finished, and the entries leave from the front: when the request that
    is running succeeds, its promise is the next to be fulfilled, and after
    the pacing timer the loop calls the head of the queue.  So once the
    requests still pending have succeeded, every submitted request has been
    called and every promise fulfilled, both in the order of submission. *)
Theorem fifo_without_failures (evs : list event) (vs : list value) :
  forallb succeeds evs = true ->
  let s := run random evs init in
  let s' := run random (wake s ++ drive (map Ok vs)) s in
  settled (heap s) = seq 0 (length (settled (heap s)))
  /\ Forall (fun p => exists v, promises (heap s) !! p = Some (Fulfilled v))
            (settled (heap s))
  /\ calls (trace s) = take (length (calls (trace s))) (submitted evs)
  /\ (forall evs1 r evs2, evs = evs1 ++ Add r :: evs2 ->
        fst (add r (run random evs1 init)) = length (submitted evs1))
  /\ (forall r, pending (step random (Add r) s)
                = pending s ++ [wrapper r (length (promises (heap s)))])
  /\ (forall t v, loops s = [AwaitRequest t] ->
        let s2 := run random [Settle 0 (Ok v); Timer 0] s in
        settled (heap s2) = settled (heap s) ++ [length (settled (heap s))]
        /\ promises (heap s2) !! length (settled (heap s))
           = Some (Fulfilled v)
        /\ match queue s with
           | [] => loops s2 = [] /\ calls (trace s2) = calls (trace s)
           | t' :: q => loops s2 = [AwaitRequest t'] /\ queue s2 = q
                        /\ calls (trace s2) = calls (trace s) ++ [request t']
           end)
  /\ (length vs = length (pending s) ->
        calls (trace s') = submitted evs
        /\ settled (heap s') = seq 0 (length (submitted evs))
        /\ (forall j v, vs !! j = Some v ->
              promises (heap s') !! (length (settled (heap s)) + j)
              = Some (Fulfilled v))
        /\ Forall (fun st => exists v, st = Fulfilled v)
                  (promises (heap s'))).
Proof.
  intros Hev s s'. pose proof (run_inv evs) as H. fold s in H.
  split; [exact (inv_settled _ _ H)|]. split; [|split; [|split; [|split; [|split]]]].
  - rewrite (inv_settled _ _ H). apply Forall_forall. intros p Hp.
    apply elem_of_seq in Hp as [_ Hp]. simpl in Hp.
    destruct (inv_done _ _ H p Hp) as (st & Hst & Hne).
    pose proof (run_not_rejected evs Hev) as Hnr. fold s in Hnr.
    rewrite Forall_lookup in Hnr. specialize (Hnr _ _ Hst).
    destruct st as [|v|e]; [congruence | eauto | exfalso; exact (Hnr e eq_refl)].
  - rewrite (inv_calls _ _ H) at 2. rewrite (inv_calls _ _ H).
    rewrite length_take. pose proof (inv_progress _ _ H) as Hpr.
    unfold pending in Hpr. rewrite length_app in Hpr.
    f_equal. lia.
  - intros evs1 r evs2 _. unfold add. simpl.
    exact (inv_count _ _ (run_inv evs1)).
  - intros r. exact (pending_add _ _ r H).
  - intros t v El. cbv zeta.
    assert (Hi : loops s !! 0 = Some (AwaitRequest t))
      by (rewrite El; reflexivity).
    destruct (inv_awaiting _ _ _ _ H Hi) as (_ & _ & r & -> & _ & Hk & _).
    change (run random [Settle 0 (Ok v); Timer 0] s)
      with (step random (Timer 0) (step random (Settle 0 (Ok v)) s)).
    set (s1 := step random (Settle 0 (Ok v)) s).
    assert (E1 : s1 = _) by exact (step_settle s r (Ok v) El Hk).
    assert (El1 : loops s1 = [AwaitPacing (randomDelay (random (draws s)))])
      by (rewrite E1; reflexivity).
    rewrite (step_timer_pacing s1 _ El1).
    assert (Eq1 : queue s1 = queue s) by (rewrite E1; reflexivity).
    assert (Eh1 : heap s1 = _) by (rewrite E1; reflexivity).
    assert (Et1 : calls (trace s1) = calls (trace s)).
    { rewrite E1. simpl. rewrite calls_app. simpl. apply app_nil_r. }
    rewrite Eq1.
    assert (Hs : forall s2, heap s2 = heap s1 ->
              settled (heap s2) = settled (heap s) ++ [length (settled (heap s))]
              /\ promises (heap s2) !! length (settled (heap s))
                 = Some (Fulfilled v)).
    { intros s2 ->. rewrite Eh1. simpl. split; [reflexivity|].
      apply list_lookup_insert_eq. eapply lookup_lt_Some; eassumption. }
    destruct (queue s) as [|t' q].
    + destruct (Hs _ eq_refl) as [A B]. repeat split; auto.
    + destruct (Hs {| queue := q; processing := processing s1;
                      loops := [AwaitRequest t']; heap := heap s1;
                      draws := draws s1;
                      trace := trace s1 ++ [Called (request t')] |} eq_refl)
        as [A B].
      split; [exact A|]. split; [exact B|]. simpl.
      rewrite calls_app, Et1. auto.
  - intros Hlen.
    assert (Hlen' : length (map Ok vs) = length (pending s))
      by (rewrite length_map; exact Hlen).
    destruct (drain_all _ s (map Ok vs) H Hlen') as (El' & _ & _ & H' & Hp').
    fold s' in El', H', Hp'.
    destruct (inv_drained _ _ H' El') as [Hc Hn].
    split; [exact Hc|]. split; [rewrite (inv_settled _ _ H'), Hn; reflexivity|].
    split.
    { intros j v Hj. apply (Hp' j (Ok v)).
      rewrite list_lookup_fmap, Hj. reflexivity. }
    assert (Hall : forallb succeeds (evs ++ wake s ++ drive (map Ok vs)) = true).
    { rewrite !forallb_app, Hev. simpl. apply andb_true_intro. split.
      - unfold wake. destruct (loops s) as [|[]]; reflexivity.
      - clear. induction vs as [|v vs IH]; [reflexivity | exact IH]. }
    pose proof (run_not_rejected _ Hall) as Hnr.
    rewrite run_app in Hnr. fold s s' in Hnr.
    apply Forall_lookup. intros p st Hst.
    rewrite Forall_lookup in Hnr. specialize (Hnr _ _ Hst).
    assert (Hlt : p < length (settled (heap s'))).
    { rewrite Hn, <- (inv_count _ _ H'). eapply lookup_lt_Some; eassumption. }
    destruct (inv_done _ _ H' p Hlt) as (st' & Hst' & Hne).
    assert (st' = st) by congruence. subst st'.
    destruct st as [|v|e]; [congruence | eauto | exfalso; exact (Hnr e eq_refl)].
Qed.

(** ** Delays *)














(** The doubles differ from the rationals here: at this draw
    [floor(r * 2000)] is 116 over the rationals, and the product of the two
    doubles is rounded to 117. *)
Lemma randomDelay_rounds :
  let r := (131730289100587 # 2 ^ 51)%Q in
  isDouble r = true /\ (Qfloor (r * 2000) + 1500 = 1616)%Z
  /\ randomDelay r = 1617%Z.
Proof. vm_compute. auto. Qed.

(** [Math.pow(2, n) * 1000] is exact up to [n = 1014] and [Infinity] from
    1015 on. *)
Lemma exponentialBackoff_overflow :
  exponentialBackoff 3 = Finite 8000
  /\ exponentialBackoff 21 = Finite 2097152000
  /\ exponentialBackoff 1014 = Finite (inject_Z (2 ^ 1014 * 1000))
  /\ exponentialBackoff 1015 = Infinity
  /\ exponentialBackoff 1024 = Infinity.
Proof. vm_compute. auto 6. Qed.


Lemma step_thrown (s : state) (i : nat) (t : thunk) (o : outcome) (h : store)
    (e : error) :
  loops s !! i = Some (AwaitRequest t) ->
  finish t o (heap s) = (h, Thrown e) ->
  step random (Settle i o) s =
  {| queue := t :: queue s; processing := processing s;
     loops := delete i (loops s)
              ++ [AwaitBackoff (exponentialBackoff (S (length (queue s))))];
     heap := h; draws := draws s;
     trace := trace s ++ [ConsoleError e]
              ++ [Backoff (exponentialBackoff (S (length (queue s))))] |}.
Proof.
  intros Hi Hf. unfold step. rewrite Hi. unfold after_request. simpl heap.
  rewrite Hf. unfold park, emit, set_queue, set_heap. simpl.
  rewrite <- app_assoc. reflexivity.
Qed.

Lemma step_timer_backoff (s : state) (l : list pc) (b : number) :
  loops s = l ++ [AwaitBackoff b] ->
  step random (Timer (length l)) s =
  {| queue := queue s; processing := processing s;
     loops := l ++ [AwaitPacing (randomDelay (random (draws s)))];
     heap := heap s; draws := S (draws s);
     trace := trace s ++ [Pacing (randomDelay (random (draws s)))] |}.
Proof.
  intros El. unfold step. rewrite El, list_lookup_middle by reflexivity.
  rewrite delete_middle, app_nil_r. reflexivity.
Qed.



(** X4.  What [processQueue] does with an entry that throws: after the backoff
    and the pacing timers, the same entry is called again, with the queue
    behind it as it was. *)
Lemma thrown_entry_is_called_again (s : state) (t : thunk) (o : outcome)
    (h : store) (e : error) :
  loops s = [AwaitRequest t] ->
  finish t o (heap s) = (h, Thrown e) ->
  let s3 := run random [Settle 0 o; Timer 0; Timer 0] s in
  loops s3 = [AwaitRequest t] /\ queue s3 = queue s
  /\ calls (trace s3) = calls (trace s) ++ [request t].
Proof.
  intros El Hf. cbv zeta.
  change (run random [Settle 0 o; Timer 0; Timer 0] s)
    with (step random (Timer 0) (step random (Timer 0) (step random (Settle 0 o) s))).
  assert (Hi : loops s !! 0 = Some (AwaitRequest t)) by (rewrite El; reflexivity).
  pose proof (step_thrown _ _ _ _ _ _ Hi Hf) as E1. rewrite El in E1.
  set (s1 := step random (Settle 0 o) s) in *.
  pose proof (step_timer_backoff s1 [] _ ltac:(rewrite E1; reflexivity)) as E2.
  simpl length in E2. set (s2 := step random (Timer 0) s1) in *.
  pose proof (step_timer_pacing s2 _ ltac:(rewrite E2; reflexivity)) as E3.
  replace (queue s2) with (t :: queue s) in E3 by (rewrite E2, E1; reflexivity).
  rewrite E3, E2, E1. simpl.
  rewrite !calls_app. simpl. rewrite !app_nil_r. auto.
Qed.

(** ** What the wrapper makes of the retry *)

Lemma idle_internal (s : state) (ev : event) :
  loops s = [] -> internal ev = true -> step random ev s = s.
Proof.
  intros El Hev. destruct ev as [r | i o | i]; [discriminate | |];
    unfold step; rewrite El; reflexivity.
Qed.

Lemma idle_run_internal (s : state) (evs : list event) :
  loops s = [] -> run random (List.filter internal evs) s = s.
Proof.
  intros El. induction evs as [|ev evs IH]; [reflexivity|].
  simpl List.filter. destruct (internal ev) eqn:Hev; [|exact IH].
  change (run random (ev :: List.filter internal evs) s)
    with (run random (List.filter internal evs) (step random ev s)).
  rewrite (idle_internal _ _ El Hev). exact IH.
Qed.

(** C2, at a request that throws.  The request is called once and its
    promise rejected; after the pacing delay the queue is empty and the loop
    has ended, and no timer or settlement brings the request back.  In no
    run are more requests called than were submitted. *)
Theorem failed_request_is_not_retried (r : op) (e : error) (evs : list event) :
  let s := run random [Add r; Settle 0 (Err e); Timer 0] init in
  queue s = [] /\ loops s = [] /\ processing s = false
  /\ promises (heap s) = [Rejected e]
  /\ trace s = [Called r; Pacing (randomDelay (random 0))]
  /\ run random (List.filter internal evs) s = s
  /\ length (calls (trace (run random evs init))) <= length (submitted evs).
Proof.
  cbv zeta. repeat split; try reflexivity.
  - apply idle_run_internal. reflexivity.
  - rewrite (inv_calls _ _ (run_inv evs)), length_take. lia.
Qed.

(** C9, at two requests of which the first throws.  The first is called
    once and rejected; after the pacing delay the loop calls the second. *)
Theorem later_request_runs_after_failure (a b : op) (e : error) :
  let s := run random [Add a; Add b; Settle 0 (Err e); Timer 0] init in
  loops s = [AwaitRequest (wrapper b 1)] /\ queue s = []
  /\ promises (heap s) = [Rejected e; Pending]
  /\ trace s = [Called a; Pacing (randomDelay (random 0)); Called b].
Proof. cbv zeta. repeat split; reflexivity. Qed.

End Reachable.

(** * The properties at sample inputs *)



(** Two requests submitted; the first throws. *)
Lemma failed_request_is_rejected_and_dropped_witness :
  loops (run half [Add 7; Add 8] init) !! 0 = Some (AwaitRequest (wrapper 7 0))
  /\ exists r p,
       wrapper 7 0 = wrapper r p /\
       let s := run half [Add 7; Add 8] init in
       let s1 := step half (Settle 0 (Err boom)) s in
       let s2 := step half (Timer 0) s1 in
       let ms := randomDelay (half (draws s)) in
       promises (heap s1) !! p = Some (Rejected boom)
       /\ queue s1 = queue s
       /\ loops s1 = [AwaitPacing ms]
       /\ trace s1 = trace s ++ [Pacing ms]
       /\ match queue s with
          | [] => loops s2 = [] /\ processing s2 = false /\ trace s2 = trace s1
          | t' :: q => loops s2 = [AwaitRequest t'] /\ queue s2 = q
                       /\ trace s2 = trace s1 ++ [Called (request t')]
          end
       /\ forall evs',
            promises (heap (run half evs' s1)) !! p = Some (Rejected boom)
            /\ wrapper r p ∉ pending (run half evs' s1).
Proof.
  assert (H : loops (run half [Add 7; Add 8] init) !! 0
              = Some (AwaitRequest (wrapper 7 0))) by (vm_compute; reflexivity).
  exact (conj H (failed_request_is_rejected_and_dropped half [Add 7; Add 8] 0
                   (wrapper 7 0) boom H)).
Defined.

(** A second request submitted while the first is running. *)
Lemma single_drain_loop_witness :
  let s := run half [Add 7] init in
  let s' := step half (Add 8) s in
  let w := wrapper 8 (length (promises (heap s))) in
  processing s = true
  /\ length [Err boom] = length (pending s)
  /\ length (loops s) <= 1
  /\ loops s' = loops s
  /\ queue s' = queue s ++ [w]
  /\ loops (run half (wake s ++ drive [Err boom]) s') = [AwaitRequest w].
Proof.
  cbv zeta.
  assert (Hp : processing (run half [Add 7] init) = true)
    by (vm_compute; reflexivity).
  assert (Hl : length [Err boom] = length (pending (run half [Add 7] init)))
    by (vm_compute; reflexivity).
  destruct (single_drain_loop half [Add 7] 8 [Err boom]) as (H1 & _ & H).
  destruct (H Hp) as (H2 & H3 & H4).
  exact (conj Hp (conj Hl (conj H1 (conj H2 (conj H3 (H4 Hl)))))).
Defined.

(** A request runs to its end, the queue drains, and another is submitted. *)
Lemma restart_after_drain_witness :
  let s := run half [Add 7; Settle 0 (Ok 1%Z)] init in
  let s0 := run half [Add 7; Settle 0 (Ok 1%Z); Timer 0] init in
  let s' := step half (Add 8) s0 in
  loops s = [AwaitPacing 2500]
  /\ queue s = []
  /\ (processing (step half (Timer 0) s) = false
      /\ loops (step half (Timer 0) s) = []
      /\ queue (step half (Timer 0) s) = [])
  /\ processing s0 = false
  /\ processing s' = true
  /\ loops s' = [AwaitRequest (wrapper 8 (length (promises (heap s0))))]
  /\ queue s' = []
  /\ trace s' = trace s0 ++ [Called 8].
Proof.
  cbv zeta.
  assert (Hl : loops (run half [Add 7; Settle 0 (Ok 1%Z)] init)
               = [AwaitPacing 2500]) by (vm_compute; reflexivity).
  assert (Hq : queue (run half [Add 7; Settle 0 (Ok 1%Z)] init) = [])
    by (vm_compute; reflexivity).
  assert (Hp : processing (run half [Add 7; Settle 0 (Ok 1%Z); Timer 0] init)
               = false) by (vm_compute; reflexivity).
  destruct (restart_after_drain half [Add 7; Settle 0 (Ok 1%Z)] 8) as [H _].
  destruct (restart_after_drain half [Add 7; Settle 0 (Ok 1%Z); Timer 0] 8)
    as [_ H'].
  exact (conj Hl (conj Hq (conj (H 2500%Z Hl Hq) (conj Hp (H' Hp))))).
Defined.

(** Three requests, the third submitted while the second is running; then
    the second and the third succeed. *)
Lemma fifo_without_failures_witness :
  let evs := [Add 7; Add 8; Settle 0 (Ok 1%Z); Timer 0; Add 9] in
  let vs := [2%Z; 3%Z] in
  let s := run half evs init in
  let s' := run half (wake s ++ drive (map Ok vs)) s in
  forallb succeeds evs = true
  /\ loops s = [AwaitRequest (wrapper 8 1)]
  /\ length vs = length (pending s)
  /\ settled (heap s) = seq 0 (length (settled (heap s)))
  /\ Forall (fun p => exists v, promises (heap s) !! p = Some (Fulfilled v))
            (settled (heap s))
  /\ calls (trace s) = take (length (calls (trace s))) (submitted evs)
  /\ (let s2 := run half [Settle 0 (Ok 2%Z); Timer 0] s in
      settled (heap s2) = settled (heap s) ++ [length (settled (heap s))]
      /\ promises (heap s2) !! length (settled (heap s))
         = Some (Fulfilled 2%Z)
      /\ match queue s with
         | [] => loops s2 = [] /\ calls (trace s2) = calls (trace s)
         | t' :: q => loops s2 = [AwaitRequest t'] /\ queue s2 = q
                      /\ calls (trace s2) = calls (trace s) ++ [request t']
         end)
  /\ calls (trace s') = submitted evs
  /\ settled (heap s') = seq 0 (length (submitted evs))
  /\ (forall j v, vs !! j = Some v ->
        promises (heap s') !! (length (settled (heap s)) + j)
        = Some (Fulfilled v))
  /\ Forall (fun st => exists v, st = Fulfilled v) (promises (heap s')).
Proof.
  cbv zeta.
  assert (H : forallb succeeds
                [Add 7; Add 8; Settle 0 (Ok 1%Z); Timer 0; Add 9] = true)
    by (vm_compute; reflexivity).
  assert (Hl : loops (run half [Add 7; Add 8; Settle 0 (Ok 1%Z); Timer 0; Add 9]
                        init) = [AwaitRequest (wrapper 8 1)])
    by (vm_compute; reflexivity).
  assert (Hn : length [2%Z; 3%Z]
               = length (pending (run half [Add 7; Add 8; Settle 0 (Ok 1%Z);
                                            Timer 0; Add 9] init)))
    by (vm_compute; reflexivity).
  destruct (fifo_without_failures half _ [2%Z; 3%Z] H)
    as (H1 & H2 & H3 & _ & _ & H6 & H7).
  exact (conj H (conj Hl (conj Hn (conj H1 (conj H2 (conj H3
           (conj (H6 _ 2%Z Hl) (H7 Hn)))))))).
Defined.




(** * The queue: further properties *)

Section QueueMore.

Variable random : nat -> Q.

(** X1.  In every run, also one in which requests throw, the requests are called
    in the order of submission and none twice: the calls are the first
    submissions, as many as there are settled promises and running entries;
    and the promises settle in the order of their creation. *)
Theorem calls_follow_submissions (evs : list event) :
  let s := run random evs init in
  calls (trace s)
  = take (length (settled (heap s)) + length (executing s)) (submitted evs)
  /\ settled (heap s) = seq 0 (length (settled (heap s)))
  /\ length (promises (heap s)) = length (submitted evs).
Proof.
  intros s. pose proof (run_inv random evs) as H. fold s in H.
  split; [exact (inv_calls _ _ H)|].
  split; [exact (inv_settled _ _ H) | exact (inv_count _ _ H)].
Qed.

(** X2.  No entry is left waiting without a loop: in every reachable state either
    the flag is set and exactly one activation of [processQueue] is parked,
    or the flag is clear, no activation exists, the queue is empty and every
    promise has settled. *)
Theorem idle_means_drained (evs : list event) :
  let s := run random evs init in
  (processing s = true /\ length (loops s) = 1)
  \/ (processing s = false /\ loops s = [] /\ queue s = []
      /\ length (settled (heap s)) = length (promises (heap s))).
Proof.
  intros s. pose proof (run_inv random evs) as H. fold s in H.
  pose proof (inv_loops _ _ H) as Hl. pose proof (inv_progress _ _ H) as Hp.
  unfold pending, executing in Hp.
  destruct (loops s) as [|c [|c' l]] eqn:El; [| |contradiction].
  - right. destruct Hl as [Hpr Hq]. rewrite Hq in Hp. simpl in Hp.
    rewrite (inv_count _ _ H). repeat split; auto. lia.
  - left. destruct Hl as [Hpr _]. auto.
Qed.

(** X3.  No request is lost: from any reachable state, once the requests still
    pending have settled (in whatever way) and the pacing timers have fired,
    the queue is empty, the loop has ended with the flag clear, every
    submitted request has been called, in order, and the promise of each
    pending request holds what its request produced. *)
Theorem drain_settles_everything (evs : list event) (outs : list outcome) :
  let s := run random evs init in
  let s' := run random (wake s ++ drive outs) s in
  length outs = length (pending s) ->
  loops s' = [] /\ processing s' = false /\ queue s' = []
  /\ calls (trace s') = submitted evs
  /\ forall j o, outs !! j = Some o ->
       promises (heap s') !! (length (settled (heap s)) + j)
       = Some (promised o).
Proof.
  intros s s' Hlen. pose proof (run_inv random evs) as H. fold s in H.
  destruct (drain_all random _ s outs H Hlen) as (A & B & C & D & E).
  fold s' in A, B, C, D, E.
  split; [exact A|]. split; [exact B|]. split; [exact C|].
  split; [exact (proj1 (inv_drained _ _ D A))|]. exact E.
Qed.

End QueueMore.
(** * Strings and truncation: properties *)

Lemma trimStart_split (s : list N) :
  exists w, s = w ++ trimStart s /\ forallb is_white w = true.
Proof.
  induction s as [|c s IH]; simpl.
  - exists []. auto.
  - destruct (is_white c) eqn:Hc.
    + destruct IH as (w & Hs & Hw). exists (c :: w). simpl.
      rewrite Hc, Hw. split; [congruence | reflexivity].
    + exists []. auto.
Qed.

Lemma trimStart_head (s : list N) (c : N) (r : list N) :
  trimStart s = c :: r -> is_white c = false.
Proof.
  induction s as [|x s IH]; simpl; [discriminate|].
  destruct (is_white x) eqn:Hx; [exact IH|]. intros [= <- _]. exact Hx.
Qed.

Lemma trimStart_all_white (s : list N) :
  forallb is_white s = true -> trimStart s = [].
Proof.
  induction s as [|x s IH]; simpl; [reflexivity|].
  destruct (is_white x); [exact IH | discriminate].
Qed.

Lemma trimStart_length (s : list N) : length (trimStart s) <= length s.
Proof.
  induction s as [|x s IH]; simpl; [lia|]. destruct (is_white x); simpl; lia.
Qed.

Lemma trimEnd_split (s : list N) :
  exists w, s = trimEnd s ++ w /\ forallb is_white w = true.
Proof.
  unfold trimEnd. destruct (trimStart_split (rev s)) as (w & Hs & Hw).
  exists (rev w). split.
  - rewrite <- rev_app_distr, <- Hs, rev_involutive. reflexivity.
  - rewrite forallb_forall in *. intros x Hx. apply Hw.
    apply in_rev. exact Hx.
Qed.

Lemma trimEnd_last (s : list N) (c : N) :
  last s = Some c -> is_white c = false -> trimEnd s = s.
Proof.
  intros Hl Hc. unfold trimEnd.
  destruct (rev s) as [|x r] eqn:Er.
  - apply (f_equal (@rev N)) in Er. rewrite rev_involutive in Er. subst s.
    discriminate.
  - assert (x = c).
    { apply (f_equal (@rev N)) in Er. rewrite rev_involutive in Er. subst s.
      simpl in Hl. rewrite last_snoc in Hl. congruence. }
    subst x. simpl. rewrite Hc. rewrite <- Er. apply rev_involutive.
Qed.



Lemma trim_last (s : list N) (c : N) :
  last s = Some c -> is_white c = false -> last (trim s) = Some c.
Proof.
  intros Hl Hc. unfold trim.
  destruct (trimStart_split s) as (w & Hs & Hw).
  assert (Hl' : last (trimStart s) = Some c).
  { destruct (trimStart s) as [|x u] eqn:Eu.
    - rewrite app_nil_r in Hs. subst w.
      rewrite forallb_forall in Hw.
      assert (In c s).
      { destruct s as [|y s] using rev_ind; [discriminate|].
        rewrite last_snoc in Hl. injection Hl as ->. apply in_or_app. right.
        left. reflexivity. }
      rewrite (Hw c H) in Hc. discriminate.
    - rewrite Hs, last_app in Hl.
      destruct (last (x :: u)) eqn:E; [exact Hl|].
      apply last_None in E. discriminate. }
  rewrite (trimEnd_last _ _ Hl' Hc). exact Hl'.
Qed.

Lemma trim_head (s : list N) (c : N) (r : list N) :
  trim s = c :: r -> is_white c = false.
Proof.
  unfold trim. intros H.
  destruct (trimEnd_split (trimStart s)) as (w & Ht & _).
  rewrite H in Ht. simpl in Ht. exact (trimStart_head _ _ _ Ht).
Qed.

Lemma trim_id (s : list N) :
  forallb (fun c => negb (is_white c)) s = true -> trim s = s.
Proof.
  intros Hs. destruct s as [|c s]; [reflexivity|].
  assert (Hc : is_white c = false).
  { simpl in Hs. apply andb_prop in Hs as [Hc _]. destruct (is_white c); auto. }
  unfold trim. replace (trimStart (c :: s)) with (c :: s) by (simpl; rewrite Hc; reflexivity).
  destruct (last (c :: s)) as [x|] eqn:Hl.
  - apply (trimEnd_last _ _ Hl).
    rewrite forallb_forall in Hs.
    assert (In x (c :: s)).
    { apply list_elem_of_In. eapply last_Some_elem_of. exact Hl. }
    specialize (Hs x H). destruct (is_white x); auto.
  - apply last_None in Hl. discriminate.
Qed.

(** [slice(0, e)] is a prefix. *)
Lemma slice_0 (s : list N) (e : Z) :
  slice s 0 e
  = take (Z.to_nat (if (e <? 0)%Z then Z.max (Z.of_nat (length s) + e) 0
                    else Z.min e (Z.of_nat (length s)))) s.
Proof.
  unfold slice. simpl (0 <? 0)%Z. cbv iota.
  rewrite (Z.min_l 0) by lia. simpl drop. rewrite Z.sub_0_r. reflexivity.
Qed.


Lemma find_last_spec (c : N) (l : list N) (i : Z) :
  (0 <= i)%Z ->
  (find_last c l i = -1 /\ ~ In c l)%Z
  \/ (i <= find_last c l i < i + Z.of_nat (length l)
      /\ l !! Z.to_nat (find_last c l i - i) = Some c)%Z.
Proof.
  revert i. induction l as [|x l IH]; intros i Hi; simpl find_last.
  - left. split; [reflexivity | intros []].
  - destruct (IH (i + 1)%Z ltac:(lia)) as [[Hr Hn] | [Hr Hl]].
    + rewrite Hr. change (0 <=? -1)%Z with false. cbv iota.
      destruct (N.eqb_spec x c) as [->|Hne].
      * right. split; [simpl length; lia|]. rewrite Z.sub_diag. reflexivity.
      * left. split; [reflexivity|]. intros [H|H]; [congruence | exact (Hn H)].
    + destruct (Z.leb_spec 0 (find_last c l (i + 1))) as [_|?]; [|lia].
      right. split; [simpl length; lia|].
      replace (Z.to_nat (find_last c l (i + 1) - i))
        with (S (Z.to_nat (find_last c l (i + 1) - (i + 1)))) by lia.
      exact Hl.
Qed.

Lemma lastIndexOf_range (s : list N) (c : N) (pos : Z) :
  (-1 <= lastIndexOf s c pos <= Z.max pos 0)%Z
  /\ (lastIndexOf s c pos < Z.of_nat (length s) \/ lastIndexOf s c pos = -1)%Z.
Proof.
  unfold lastIndexOf.
  set (k := Z.to_nat (Z.min (Z.max pos 0) (Z.of_nat (length s) - 1) + 1)).
  destruct (find_last_spec c (take k s) 0 ltac:(lia)) as [[Hr _] | [Hr _]].
  - rewrite Hr. lia.
  - rewrite length_take in Hr. lia.
Qed.

Lemma lastIndexOf_found (s : list N) (c : N) (pos : Z) :
  (0 <= lastIndexOf s c pos)%Z ->
  s !! Z.to_nat (lastIndexOf s c pos) = Some c.
Proof.
  unfold lastIndexOf.
  set (k := Z.to_nat (Z.min (Z.max pos 0) (Z.of_nat (length s) - 1) + 1)).
  destruct (find_last_spec c (take k s) 0 ltac:(lia)) as [[Hr _] | [Hr Hl]].
  - rewrite Hr. lia.
  - intros _. rewrite Z.sub_0_r in Hl.
    rewrite lookup_take_lt in Hl; [exact Hl|].
    rewrite length_take in Hr. lia.
Qed.


Lemma period_not_white : is_white period = false.
Proof. reflexivity. Qed.

Lemma last_take_lookup (s : list N) (i : nat) (c : N) :
  s !! i = Some c -> last (take (S i) s) = Some c.
Proof.
  intros H. rewrite (take_S_r _ _ _ H), last_snoc. reflexivity.
Qed.

(** The cut at the last period in reach: when there is one, it is kept and
    is not blank. *)
Lemma cut_at_period (content : list N) (m : Z) :
  (0 <= lastIndexOf content period m)%Z ->
  slice content 0 (lastIndexOf content period m + 1)
  = take (S (Z.to_nat (lastIndexOf content period m))) content
  /\ last (trim (slice content 0 (lastIndexOf content period m + 1)))
     = Some period.
Proof.
  intros Hr. pose proof (lastIndexOf_found _ _ _ Hr) as Hf.
  pose proof (lookup_lt_Some _ _ _ Hf) as Hlt.
  assert (E : slice content 0 (lastIndexOf content period m + 1)
              = take (S (Z.to_nat (lastIndexOf content period m))) content).
  { rewrite slice_0.
    destruct (Z.ltb_spec (lastIndexOf content period m + 1) 0); [lia|].
    f_equal. lia. }
  split; [exact E|]. rewrite E.
  apply trim_last; [apply last_take_lookup, Hf | reflexivity].
Qed.

Lemma cut_without_period (content : list N) (m : Z) :
  (lastIndexOf content period m < 0)%Z ->
  slice content 0 (lastIndexOf content period m + 1) = [].
Proof.
  intros Hr. pose proof (lastIndexOf_range content period m) as [Hb _].
  replace (lastIndexOf content period m) with (-1)%Z by lia.
  rewrite slice_0. change (-1 + 1 <? 0)%Z with false. cbv iota.
  replace (Z.to_nat (Z.min (-1 + 1) (Z.of_nat (length content)))) with 0 by lia.
  reflexivity.
Qed.

Lemma nonempty_length {A} (l : list A) :
  (0 <? length l) = true <-> l <> [].
Proof.
  destruct l; simpl; split; intros H; try reflexivity; try discriminate.
  congruence.
Qed.

Lemma truncated_shape (content : list N) (maxLength : Z) :
  (maxLength < Z.of_nat (length content))%Z ->
  let result := truncateMessage content maxLength in
  last result = Some period
  /\ (exists c rest, result = c :: rest /\ is_white c = false)
  /\ (exists n, result = trim (take n content)
                \/ result = trim (take n content) ++ dots).
Proof.
  intros Hlen. cbv zeta. unfold truncateMessage.
  destruct (Z.leb_spec (Z.of_nat (length content)) maxLength) as [?|_]; [lia|].
  assert (Hhead : forall s, exists c rest,
            trim s ++ dots = c :: rest /\ is_white c = false).
  { intros s. destruct (trim s) as [|c r] eqn:E.
    - exists period, [period; period]. auto.
    - exists c, (r ++ dots). split; [reflexivity | exact (trim_head _ _ _ E)]. }
  assert (Hlast : forall s : list N, last (s ++ dots) = Some period).
  { intros s. unfold dots.
    change (s ++ [period; period; period])
      with (s ++ [period; period] ++ [period]).
    rewrite app_assoc. apply last_snoc. }
  destruct (0 <? length (trim (slice content 0
              (lastIndexOf content period maxLength + 1)))) eqn:E1.
  - destruct (Z.le_gt_cases 0 (lastIndexOf content period maxLength)) as [Hr|Hr].
    + destruct (cut_at_period content maxLength Hr) as [Es Hl].
      split; [exact Hl|]. split.
      * destruct (trim _) as [|c r] eqn:E; [discriminate|].
        exists c, r. split; [reflexivity | exact (trim_head _ _ _ E)].
      * exists (S (Z.to_nat (lastIndexOf content period maxLength))).
        left. rewrite Es. reflexivity.
    + rewrite cut_without_period in E1 by lia. discriminate.
  - destruct (0 <? length (trim (slice content 0
                (lastIndexOf content space maxLength)))) eqn:E2.
    + split; [apply Hlast|]. split; [apply Hhead|].
      rewrite slice_0. eexists. right. reflexivity.
    + split; [apply Hlast|]. split; [apply Hhead|].
      rewrite slice_0. eexists. right. reflexivity.
Qed.

(** X5.  A message that had to be cut ends with a period (its own or the last of
    ["..."]), does not begin with white space, and is a prefix of the
    content, trimmed, with or without ["..."] after it. *)
Theorem truncateMessage_shape (content : list N) (maxLength : Z) :
  (maxLength < Z.of_nat (length content))%Z ->
  let result := truncateMessage content maxLength in
  last result = Some period
  /\ (exists c rest, result = c :: rest /\ is_white c = false)
  /\ (exists n, result = trim (take n content)
                \/ result = trim (take n content) ++ dots).
Proof. exact (truncated_shape content maxLength). Qed.



(** X7.  Without any period or white space the cut removes one code unit only:
    a text of one long word comes back two code units longer than it was. *)
Theorem truncateMessage_unbroken (content : list N) (maxLength : Z) :
  (maxLength < Z.of_nat (length content))%Z ->
  2 <= length content ->
  forallb (fun c => negb (is_white c) && negb (c =? period)%N) content = true ->
  truncateMessage content maxLength = removelast content ++ dots.
Proof.
  intros Hlen H2 Hw. unfold truncateMessage.
  destruct (Z.leb_spec (Z.of_nat (length content)) maxLength) as [?|_]; [lia|].
  rewrite forallb_forall in Hw.
  assert (Hno : forall c pos, c = period \/ is_white c = true ->
            (lastIndexOf content c pos < 0)%Z).
  { intros c pos Hc.
    destruct (Z.le_gt_cases 0 (lastIndexOf content c pos)) as [Hr|Hr]; [|lia].
    pose proof (lastIndexOf_found _ _ _ Hr) as Hf.
    assert (Hin : In c content).
    { apply list_elem_of_In, list_elem_of_lookup. eauto. }
    specialize (Hw c Hin). apply andb_prop in Hw as [Hw1 Hw2].
    destruct Hc as [->|Hc].
    - rewrite N.eqb_refl in Hw2. discriminate.
    - rewrite Hc in Hw1. discriminate. }
  rewrite cut_without_period by (apply Hno; auto).
  change (0 <? length (trim [])) with false. cbv iota.
  pose proof (lastIndexOf_range content space maxLength) as [Hs1 _].
  pose proof (Hno space maxLength (or_intror eq_refl)) as Hs2.
  replace (lastIndexOf content space maxLength) with (-1)%Z by lia.
  assert (Es : slice content 0 (-1) = removelast content).
  { rewrite slice_0. change (-1 <? 0)%Z with true. cbv iota.
    rewrite removelast_firstn_len.
    replace (Z.to_nat (Z.max (Z.of_nat (length content) + -1) 0))
      with (Init.Nat.pred (length content)) by lia.
    reflexivity. }
  rewrite Es.
  assert (Et : trim (removelast content) = removelast content).
  { apply trim_id. apply forallb_forall. intros c Hc.
    assert (Hin : In c content).
    { destruct content as [|x content] using rev_ind; [destruct Hc|].
      rewrite removelast_last in Hc. apply in_or_app. auto. }
    specialize (Hw c Hin). apply andb_prop in Hw as [Hw1 _]. exact Hw1. }
  rewrite Et.
  assert (Hne : removelast content <> []).
  { intros E. apply (f_equal (@length N)) in E.
    rewrite removelast_firstn_len, length_take in E. simpl in E. lia. }
  apply nonempty_length in Hne. rewrite Hne. reflexivity.
Qed.


(** * Random delays: properties *)

Lemma floor_scaled_range (r : Q) (n : Z) :
  (0 <= r < 1)%Q -> (0 < n)%Z ->
  (0 <= Qfloor (r * inject_Z n) < n)%Z.
Proof.
  intros [H0 H1] Hn. split.
  - change 0%Z with (Qfloor 0). apply Qfloor_resp_le.
    apply Qmult_le_0_compat; [assumption|].
    change 0%Q with (inject_Z 0). rewrite <- Zle_Qle. lia.
  - rewrite Zlt_Qlt. eapply Qle_lt_trans; [apply Qfloor_le|].
    rewrite <- (Qmult_1_l (inject_Z n)) at 2.
    apply Qmult_lt_compat_r; [|assumption].
    change 0%Q with (inject_Z 0). rewrite <- Zlt_Qlt. lia.
Qed.


(** X10.  The loops of the interaction and chat clients run again after 2 to 5
    whole minutes and after 5 to 20 whole seconds. *)
Theorem loop_delays (r : Q) :
  (0 <= r < 1)%Q ->
  (120000 <= interactionsDelay r <= 300000)%Z
  /\ (interactionsDelay r mod 60000 = 0)%Z
  /\ (5000 <= chatDelay r <= 20000)%Z
  /\ (chatDelay r mod 1000 = 0)%Z.
Proof.
  intros Hr. unfold interactionsDelay, chatDelay. cbv zeta.
  pose proof (floor_scaled_range r (5 - 2 + 1) Hr ltac:(lia)) as H1.
  pose proof (floor_scaled_range r (20 - 5 + 1) Hr ltac:(lia)) as H2.
  repeat split; try lia.
  - rewrite <- Z.mul_assoc. change (60 * 1000)%Z with 60000%Z.
    apply Z.mod_mul. lia.
  - apply Z.mod_mul. lia.
Qed.


(** * Paging through the API: properties *)

Lemma pagesFrom_S (first : Z) (n : nat) :
  pagesFrom first (S n) = first :: pagesFrom (first + 1) n.
Proof.
  unfold pagesFrom. simpl. rewrite Z.add_0_r. f_equal.
  rewrite <- seq_shift, map_map. apply map_ext. intros k. lia.
Qed.

Lemma pagesFrom_snoc (first : Z) (n : nat) :
  pagesFrom first (S n) = pagesFrom first n ++ [(first + Z.of_nat n)%Z].
Proof.
  unfold pagesFrom. rewrite seq_S, map_app. reflexivity.
Qed.

Lemma pagesFrom_1 (first : Z) : pagesFrom first 1 = [first].
Proof. unfold pagesFrom. simpl. rewrite Z.add_0_r. reflexivity. Qed.

Lemma reached_count (cur n : Z) :
  reached cur (Count (inject_Z n)) = (n <=? cur)%Z.
Proof.
  unfold reached. apply eq_true_iff_eq.
  rewrite Qle_bool_iff, <- Zle_Qle, Z.leb_le. reflexivity.
Qed.

Section NotificationPages.

Context {A : Type}.
Variable getNotifications : Z -> fetched (NotificationsResponse A).




Lemma notificationsLoop_consistent (n maxPages : Z) (fuel : nat) :
  (forall p, (1 <= p <= n)%Z ->
     exists ns, ns <> []
       /\ getNotifications p
          = Fetched {| notifications := Some ns;
                       numberOfPages := Count (inject_Z n) |}) ->
  forall (cur : Z) (acc : list A) (asked : list Z),
    (1 <= cur <= n)%Z ->
    (maxPages - cur + 1 <= Z.of_nat fuel)%Z ->
    notificationsLoop getNotifications fuel maxPages cur acc asked
    = Some (Return (acc ++ flat_map (fun p => pageItems (getNotifications p))
                            (pagesFrom cur (Z.to_nat (Z.min n maxPages - cur + 1)))),
            asked ++ pagesFrom cur (Z.to_nat (Z.min n maxPages - cur + 1))).
Proof.
  intros Hserver. induction fuel as [|fuel IH]; intros cur acc asked Hc Hf;
    simpl.
  - destruct (Z.leb_spec cur maxPages); [lia|].
    replace (Z.to_nat (Z.min n maxPages - cur + 1)) with 0 by lia.
    simpl. rewrite !app_nil_r. reflexivity.
  - destruct (Z.leb_spec cur maxPages) as [Hle|Hgt].
    2:{ replace (Z.to_nat (Z.min n maxPages - cur + 1)) with 0 by lia.
        simpl. rewrite !app_nil_r. reflexivity. }
    destruct (Hserver cur Hc) as (ns & Hne & Eg). rewrite Eg.
    cbn [notifications numberOfPages].
    destruct ns as [|x ns]; [congruence|].
    rewrite reached_count.
    destruct (Z.leb_spec n cur) as [Hlast|Hmore].
    + replace (Z.to_nat (Z.min n maxPages - cur + 1)) with 1 by lia.
      rewrite pagesFrom_1. simpl. unfold pageItems. rewrite Eg. simpl.
      rewrite app_nil_r. reflexivity.
    + rewrite (IH (cur + 1)%Z) by lia.
      replace (Z.to_nat (Z.min n maxPages - cur + 1))
        with (S (Z.to_nat (Z.min n maxPages - (cur + 1) + 1))) by lia.
      rewrite pagesFrom_S. simpl. unfold pageItems at 3. rewrite Eg. simpl.
      rewrite <- !app_assoc. reflexivity.
Qed.

(** X13.  When the server has [n] pages of notifications and says so on each, the
    call asks for the first [min n maxPages] pages and for no other, and
    returns what they hold: what lies beyond page [maxPages] is left out. *)
Theorem getAllNotifications_consistent (n maxPages : Z) :
  (1 <= n)%Z -> (0 <= maxPages)%Z ->
  (forall p, (1 <= p <= n)%Z ->
     exists ns, ns <> []
       /\ getNotifications p
          = Fetched {| notifications := Some ns;
                       numberOfPages := Count (inject_Z n) |}) ->
  getAllNotifications getNotifications maxPages
  = Some (Return (flat_map (fun p => pageItems (getNotifications p))
                           (pagesFrom 1 (Z.to_nat (Z.min n maxPages)))),
          pagesFrom 1 (Z.to_nat (Z.min n maxPages))).
Proof.
  intros Hn Hm Hserver. unfold getAllNotifications.
  rewrite (notificationsLoop_consistent n maxPages _ Hserver 1 [] [])
    by lia.
  replace (Z.to_nat (Z.min n maxPages - 1 + 1))
    with (Z.to_nat (Z.min n maxPages)) by lia.
  reflexivity.
Qed.

End NotificationPages.

Section ThreadPages.

Context {A : Type}.
Variable getThreadFeed : Z -> fetched (option (list A)).






Lemma threadsLoop_until_empty (n maxPages : Z) (fuel : nat) :
  (n < maxPages)%Z ->
  (forall p, (1 <= p <= n)%Z ->
     exists ts, ts <> [] /\ getThreadFeed p = Fetched (Some ts)) ->
  feedItems (getThreadFeed (n + 1)) = [] ->
  answered getThreadFeed (n + 1) ->
  forall (cur : Z) (acc : list A) (asked : list Z),
    (1 <= cur <= n + 1)%Z ->
    (maxPages - cur + 1 <= Z.of_nat fuel)%Z ->
    threadsLoop getThreadFeed fuel maxPages cur acc asked
    = Some (Return (acc ++ flat_map (fun p => feedItems (getThreadFeed p))
                            (pagesFrom cur (Z.to_nat (n - cur + 1)))),
            asked ++ pagesFrom cur (Z.to_nat (n - cur + 2))).
Proof.
  intros Hm Hserver Hempty Hans.
  induction fuel as [|fuel IH]; intros cur acc asked Hc Hf; simpl.
  - destruct (Z.leb_spec cur maxPages); lia.
  - destruct (Z.leb_spec cur maxPages) as [_|?]; [|lia].
    destruct (Z.eq_dec cur (n + 1)%Z) as [->|Hne].
    + replace (Z.to_nat (n - (n + 1) + 1)) with 0 by lia.
      replace (Z.to_nat (n - (n + 1) + 2)) with 1 by lia.
      rewrite pagesFrom_1. simpl. rewrite app_nil_r.
      unfold feedItems in Hempty. unfold answered in Hans.
      destruct (getThreadFeed (n + 1)) as [[[|t ts]|]|e];
        try reflexivity; [discriminate | exfalso; exact (Hans e eq_refl)].
    + destruct (Hserver cur ltac:(lia)) as (ts & Hts & Eg). rewrite Eg.
      destruct ts as [|t ts]; [congruence|].
      rewrite (IH (cur + 1)%Z) by lia.
      replace (Z.to_nat (n - cur + 1))
        with (S (Z.to_nat (n - (cur + 1) + 1))) by lia.
      replace (Z.to_nat (n - cur + 2))
        with (S (Z.to_nat (n - (cur + 1) + 2))) by lia.
      rewrite !pagesFrom_S. simpl. unfold feedItems at 3. rewrite Eg.
      rewrite <- !app_assoc. reflexivity.
Qed.

(** X15.  [getAllThreads] learns that the feed has ended only from an empty page:
    with [n] pages of threads and [maxPages] above [n], it asks for
    [n + 1] pages to return the threads of [n]. *)
Theorem getAllThreads_until_empty (n maxPages : Z) :
  (0 <= n < maxPages)%Z ->
  (forall p, (1 <= p <= n)%Z ->
     exists ts, ts <> [] /\ getThreadFeed p = Fetched (Some ts)) ->
  feedItems (getThreadFeed (n + 1)) = [] ->
  answered getThreadFeed (n + 1) ->
  getAllThreads getThreadFeed maxPages
  = Some (Return (flat_map (fun p => feedItems (getThreadFeed p))
                           (pagesFrom 1 (Z.to_nat n))),
          pagesFrom 1 (Z.to_nat (n + 1))).
Proof.
  intros Hn Hserver Hempty Hans. unfold getAllThreads.
  rewrite (threadsLoop_until_empty n maxPages _ ltac:(lia) Hserver Hempty Hans
             1 [] []) by lia.
  replace (Z.to_nat (n - 1 + 1)) with (Z.to_nat n) by lia.
  replace (Z.to_nat (n - 1 + 2)) with (Z.to_nat (n + 1)) by lia.
  reflexivity.
Qed.

End ThreadPages.

(** * Thread links: properties *)

Lemma split_nonempty (sep : N) (s : list N) : split sep s <> [].
Proof.
  destruct s as [|c s]; simpl; [discriminate|].
  destruct (c =? sep)%N; [discriminate|]. destruct (split sep s); discriminate.
Qed.

Lemma split_free (sep : N) (s : list N) :
  ~ In sep s -> split sep s = [s].
Proof.
  induction s as [|c s IH]; intros Hn; simpl; [reflexivity|].
  destruct (N.eqb_spec c sep) as [->|Hne].
  - exfalso. apply Hn. left. reflexivity.
  - rewrite IH; [reflexivity|]. intros H. apply Hn. right. exact H.
Qed.

Lemma split_app (sep : N) (a b : list N) :
  split sep (a ++ sep :: b) = split sep a ++ split sep b.
Proof.
  induction a as [|c a IH]; simpl.
  - rewrite N.eqb_refl. reflexivity.
  - destruct (c =? sep)%N.
    + rewrite IH. reflexivity.
    + rewrite IH. destruct (split sep a) as [|p ps] eqn:E; [|reflexivity].
      exfalso. exact (split_nonempty _ _ E).
Qed.

Lemma split_head (sep : N) (s : list N) :
  forall p ps, split sep s = p :: ps ->
    ~ In sep p
    /\ ((ps = [] /\ s = p) \/ exists r, s = p ++ sep :: r /\ split sep r = ps).
Proof.
  induction s as [|c s IH]; intros p ps; simpl.
  - intros [= <- <-]. split; [intros [] | left; auto].
  - destruct (N.eqb_spec c sep) as [->|Hne].
    + intros [= <- <-]. split; [intros [] | right; exists s; auto].
    + destruct (split sep s) as [|q qs] eqn:E.
      { exfalso. exact (split_nonempty _ _ E). }
      intros [= <- <-]. destruct (IH q qs eq_refl) as (Hn & Hcase).
      split; [intros [H|H]; [congruence | exact (Hn H)]|].
      destruct Hcase as [[-> ->] | (r & -> & Hr)].
      * left. auto.
      * right. exists r. auto.
Qed.

Lemma split_parts (sep : N) (parts : list (list N)) :
  forall s part, split sep s = parts -> In part parts ->
    ~ In sep part /\ exists a b, s = a ++ part ++ b.
Proof.
  induction parts as [|p ps IH]; intros s part Hs Hin; [destruct Hin|].
  destruct (split_head _ _ _ _ Hs) as (Hn & Hcase).
  destruct Hin as [<-|Hin].
  - split; [exact Hn|].
    destruct Hcase as [[_ ->] | (r & -> & _)].
    + exists [], []. rewrite app_nil_r. reflexivity.
    + exists [], (sep :: r). reflexivity.
  - destruct Hcase as [[-> _] | (r & -> & Hr)]; [destruct Hin|].
    destruct (IH r part Hr Hin) as (Hnp & a & b & ->).
    split; [exact Hnp|]. exists (p ++ sep :: a), b.
    rewrite <- !app_assoc. reflexivity.
Qed.

(** Slashes only separate: the segments of two strings joined by a slash
    are the segments of the one followed by those of the other. *)
Lemma segmentsOf_app (a b : list N) :
  segmentsOf (a ++ slash :: b) = segmentsOf a ++ segmentsOf b.
Proof. unfold segmentsOf. rewrite split_app. apply List.filter_app. Qed.

Lemma segmentsOf_segment (s : list N) :
  segment s -> segmentsOf s = [s].
Proof.
  intros [Hne Hfree]. unfold segmentsOf. rewrite (split_free _ _ Hfree).
  simpl. destruct s; [congruence | reflexivity].
Qed.

Lemma segmentsOf_nil : segmentsOf [] = [].
Proof. reflexivity. Qed.

Lemma segmentsOf_slash (s : list N) : segmentsOf (slash :: s) = segmentsOf s.
Proof. exact (segmentsOf_app [] s). Qed.

(** X16.  A link [/user/nested/id] or [/user/status/id], with or without the
    slash in front and with anything after a further slash, gives [id]. *)
Theorem parseThreadIdFromLink_path (user kind id rest : list N) :
  segment user -> segment id ->
  kind = units "nested" \/ kind = units "status" ->
  parseThreadIdFromLink (user ++ slash :: kind ++ slash :: id) = Some id
  /\ parseThreadIdFromLink (slash :: user ++ slash :: kind ++ slash :: id)
     = Some id
  /\ parseThreadIdFromLink
       (slash :: user ++ slash :: kind ++ slash :: id ++ slash :: rest)
     = Some id.
Proof.
  intros Hu Hi Hk.
  assert (Hks : segment kind).
  { destruct Hk as [->| ->]; (split; [discriminate|]);
      vm_compute; intuition discriminate. }
  assert (Hdec : bool_decide (kind = units "nested")
                 || bool_decide (kind = units "status") = true).
  { destruct Hk as [->| ->]; reflexivity. }
  assert (E : forall tail,
            parseThreadIdFromLink (user ++ slash :: kind ++ slash :: id ++ tail)
            = Some id ->
            parseThreadIdFromLink
              (slash :: user ++ slash :: kind ++ slash :: id ++ tail) = Some id).
  { intros tail. unfold parseThreadIdFromLink. rewrite segmentsOf_slash. auto. }
  assert (E0 : forall tail, tail = [] \/ (exists r, tail = slash :: r) ->
            parseThreadIdFromLink (user ++ slash :: kind ++ slash :: id ++ tail)
            = Some id).
  { intros tail Ht. unfold parseThreadIdFromLink.
    assert (Es : exists more, segmentsOf (user ++ slash :: kind ++ slash :: id ++ tail)
                 = user :: kind :: id :: more).
    { rewrite segmentsOf_app, (segmentsOf_segment _ Hu).
      rewrite segmentsOf_app, (segmentsOf_segment _ Hks).
      destruct Ht as [->|(r & ->)].
      - rewrite app_nil_r, (segmentsOf_segment _ Hi). exists []. reflexivity.
      - rewrite segmentsOf_app, (segmentsOf_segment _ Hi).
        exists (segmentsOf r). reflexivity. }
    destruct Es as (more & ->). simpl. rewrite Hdec. reflexivity. }
  split; [|split].
  - rewrite <- (app_nil_r id) at 1. apply E0. auto.
  - rewrite <- (app_nil_r id) at 1. apply E, E0. auto.
  - apply E, E0. right. eauto.
Qed.

(** [includes] finds the word exactly when the word is a piece of the
    text. *)
Lemma startsWith_app (word rest : list N) :
  startsWith (word ++ rest) word = true.
Proof.
  induction word as [|w word IH]; [destruct rest; reflexivity|].
  simpl. rewrite N.eqb_refl. exact IH.
Qed.

Lemma includes_app (a word b : list N) :
  includes (a ++ word ++ b) word = true.
Proof.
  induction a as [|c a IH].
  - simpl app. destruct (word ++ b) eqn:E; unfold includes; fold includes;
      rewrite <- E, startsWith_app; reflexivity.
  - simpl app. unfold includes; fold includes. rewrite IH.
    apply orb_true_r.
Qed.

Lemma startsWith_parts (s word : list N) :
  startsWith s word = true -> exists b, s = word ++ b.
Proof.
  revert s. induction word as [|w word IH]; intros s H.
  - exists s. reflexivity.
  - destruct s as [|c s]; [discriminate|]. simpl in H.
    apply andb_prop in H as [Hc Hs]. apply N.eqb_eq in Hc. subst c.
    destruct (IH s Hs) as [b ->]. exists b. reflexivity.
Qed.

Lemma includes_parts (s word : list N) :
  includes s word = true -> exists a b, s = a ++ word ++ b.
Proof.
  induction s as [|c s IH]; intros H.
  - unfold includes in H. rewrite orb_false_r in H.
    destruct (startsWith_parts _ _ H) as [b Hb]. exists [], b. exact Hb.
  - unfold includes in H; fold includes in H.
    apply orb_prop in H as [H|H].
    + destruct (startsWith_parts _ _ H) as [b Hb]. exists [], b. exact Hb.
    + destruct (IH H) as (a & b & ->). exists (c :: a), b. reflexivity.
Qed.

(** X17.  What is not parsed: every link of fewer than three segments, such as
    [/status/id]; every link in which neither word occurs; and an absolute
    URL whose host is neither word, because its second segment is the host,
    whatever its path.  With the host [status] the URL is parsed, and gives
    the first segment of its path. *)
Theorem parseThreadIdFromLink_null (a b scheme host id rest : list N) :
  segment a -> segment b -> segment scheme -> segment host -> segment id ->
  (forall link, length (segmentsOf link) < 3 ->
     parseThreadIdFromLink link = None)
  /\ parseThreadIdFromLink (slash :: a ++ slash :: b) = None
  /\ parseThreadIdFromLink (slash :: a) = None
  /\ parseThreadIdFromLink [] = None
  /\ (forall link,
        includes link (units "nested") = false ->
        includes link (units "status") = false ->
        parseThreadIdFromLink link = None)
  /\ (host <> units "nested" -> host <> units "status" ->
      parseThreadIdFromLink (scheme ++ slash :: slash :: host ++ slash :: rest)
      = None)
  /\ parseThreadIdFromLink
       (scheme ++ slash :: slash :: units "status" ++ slash :: id)
     = Some id.
Proof.
  intros Ha Hb Hs Hh Hi.
  split.
  { intros link Hlen. unfold parseThreadIdFromLink.
    destruct (3 <=? length (segmentsOf link)) eqn:E; [|reflexivity].
    apply Nat.leb_le in E. lia. }
  unfold parseThreadIdFromLink.
  rewrite !segmentsOf_slash, segmentsOf_app.
  rewrite (segmentsOf_segment _ Ha), (segmentsOf_segment _ Hb).
  split; [reflexivity|]. split; [reflexivity|]. split; [reflexivity|].
  split; [|split].
  - intros link Hn1 Hn2.
    destruct (3 <=? length (segmentsOf link)); [|reflexivity].
    destruct (segmentsOf link !! 1) as [kind|] eqn:Ek; [|reflexivity].
    assert (Hin : In kind (segmentsOf link)).
    { apply list_elem_of_In. eapply list_elem_of_lookup_2. exact Ek. }
    unfold segmentsOf in Hin. apply List.filter_In in Hin as [Hin _].
    destruct (split_parts slash _ link kind eq_refl Hin) as (_ & x & y & ->).
    destruct (bool_decide (kind = units "nested")) eqn:E1.
    { apply bool_decide_eq_true in E1. subst kind.
      rewrite includes_app in Hn1. discriminate. }
    destruct (bool_decide (kind = units "status")) eqn:E2.
    { apply bool_decide_eq_true in E2. subst kind.
      rewrite includes_app in Hn2. discriminate. }
    reflexivity.
  - intros Hn1 Hn2.
    rewrite segmentsOf_app, segmentsOf_slash, segmentsOf_app.
    rewrite (segmentsOf_segment _ Hs), (segmentsOf_segment _ Hh).
    simpl. rewrite !bool_decide_eq_false_2 by assumption. simpl.
    destruct (segmentsOf rest) as [|x [|y l]]; reflexivity.
  - rewrite segmentsOf_app, segmentsOf_slash, segmentsOf_app.
    rewrite (segmentsOf_segment _ Hs), (segmentsOf_segment _ Hi).
    assert (Hst : segment (units "status"))
      by (split; [discriminate | vm_compute; intuition discriminate]).
    rewrite (segmentsOf_segment _ Hst). reflexivity.
Qed.

(** X18.  The result, when there is one, is a piece of the link between slashes:
    not empty and without a slash. *)
Theorem parseThreadIdFromLink_result (link id : list N) :
  parseThreadIdFromLink link = Some id ->
  segment id /\ exists a b, link = a ++ id ++ b.
Proof.
  unfold parseThreadIdFromLink. intros H.
  assert (Hin : In id (segmentsOf link)).
  { destruct (3 <=? length (segmentsOf link)); [|discriminate].
    destruct (segmentsOf link !! 1); [|discriminate].
    destruct (_ || _); [|discriminate].
    apply list_elem_of_In. eapply list_elem_of_lookup_2. exact H. }
  unfold segmentsOf in Hin. apply List.filter_In in Hin as [Hin Hne].
  destruct (split_parts slash _ link id eq_refl Hin) as (Hfree & Hab).
  split; [|exact Hab]. split; [|exact Hfree].
  destruct id; [discriminate | discriminate].
Qed.

(** * Chat replies: properties *)

Lemma scan_spec (text : list N) :
  forall body marks,
    (body = [] -> marks = []) ->
    forallb (fun c => negb (terminator c)) body = true ->
    exists pre post,
      body ++ marks ++ text = pre ++ concat (scan body marks text) ++ post
      /\ forallb terminator pre = true
      /\ forallb (fun c => negb (terminator c)) post = true
      /\ (body <> [] -> pre = []).
Proof.
  induction text as [|c rest IH]; intros body marks Hbm Hbody; simpl scan.
  - destruct marks as [|m marks].
    + exists [], body. simpl. rewrite !app_nil_r. auto.
    + exists [], []. simpl. rewrite !app_nil_r. auto.
  - destruct (terminator c) eqn:Hc.
    + destruct body as [|b body].
      * rewrite (Hbm eq_refl).
        destruct (IH [] [] ltac:(auto) eq_refl) as (pre & post & E & Hpre & Hpost & _).
        simpl in E. exists (c :: pre), post. simpl. rewrite Hc, Hpre, E.
        repeat split; auto; congruence.
      * destruct (IH (b :: body) (marks ++ [c]) ltac:(discriminate) Hbody)
          as (pre & post & E & Hpre & Hpost & Hnil).
        exists pre, post. rewrite <- E, <- !app_assoc. simpl. auto.
    + destruct marks as [|m marks].
      * destruct (IH (body ++ [c]) [] ltac:(auto)) as (pre & post & E & Hpre & Hpost & Hnil).
        { rewrite forallb_app, Hbody. simpl. rewrite Hc. reflexivity. }
        exists pre, post. rewrite <- E, <- !app_assoc. simpl.
        repeat split; auto. intros _. apply Hnil. destruct body; discriminate.
      * destruct (IH [c] [] ltac:(auto)) as (pre & post & E & Hpre & Hpost & Hnil).
        { simpl. rewrite Hc. reflexivity. }
        assert (Hp : pre = []) by (apply Hnil; discriminate).
        subst pre. simpl in E.
        exists [], post. simpl. rewrite <- !app_assoc. simpl. rewrite E.
        rewrite <- ?app_assoc. auto.
Qed.

Lemma scan_no_terminator (text : list N) :
  forallb (fun c => negb (terminator c)) text = true ->
  forall body, scan body [] text = [].
Proof.
  induction text as [|c rest IH]; intros Ht body; simpl; [reflexivity|].
  simpl in Ht. apply andb_prop in Ht as [Hc Hrest].
  destruct (terminator c); [discriminate|]. apply IH, Hrest.
Qed.

Lemma scan_tail (text tail : list N) :
  forallb (fun c => negb (terminator c)) tail = true ->
  forall body marks, scan body marks (text ++ tail) = scan body marks text.
Proof.
  intros Htail. induction text as [|c rest IH]; intros body marks.
  - simpl app. destruct tail as [|t tail]; [reflexivity|].
    simpl in Htail. apply andb_prop in Htail as [Ht Htail].
    simpl. destruct (terminator t); [discriminate|].
    destruct marks as [|m marks].
    + apply scan_no_terminator, Htail.
    + rewrite (scan_no_terminator _ Htail). reflexivity.
  - simpl. destruct (terminator c).
    + destruct body; apply IH.
    + destruct marks; [apply IH|]. rewrite IH. reflexivity.
Qed.

Lemma concat_take_prefix {B} (n : nat) (l : list (list B)) :
  exists rest, concat l = concat (take n l) ++ rest.
Proof.
  exists (concat (drop n l)). rewrite <- concat_app, take_drop. reflexivity.
Qed.

(** X19.  The reply sent to the chat is at most 403 code units long.  It is either
    a run of complete sentences taken from the generated text, where only
    terminators may come before it, or, if the first three sentences have
    more than 400 code units, the first 400 code units of the text and
    ["..."]. *)
Theorem shortenResponse_shape (text : list N) :
  length (shortenResponse text) <= 403
  /\ ((exists pre rest, text = pre ++ shortenResponse text ++ rest
                        /\ forallb terminator pre = true)
      \/ (400 < length text
          /\ shortenResponse text = take 400 text ++ dots)).
Proof.
  unfold shortenResponse. destruct text as [|c text].
  { split; [simpl; lia|]. left. exists [], []. auto. }
  set (t := c :: text). cbv zeta.
  destruct (scan_spec t [] [] ltac:(auto) eq_refl)
    as (pre & post & E & Hpre & _ & _).
  change ([] ++ [] ++ t) with t in E.
  change (scan [] [] t) with (sentencesOf t) in E.
  destruct (concat_take_prefix 3 (sentencesOf t)) as (more & Hmore).
  assert (Hlen : length (concat (take 3 (sentencesOf t))) <= length t).
  { pose proof (f_equal (@length N) E) as EL. rewrite !length_app in EL.
    pose proof (f_equal (@length N) Hmore) as ML. rewrite length_app in ML.
    lia. }
  unfold CHAT_MAX_MESSAGE_LENGTH.
  destruct (Nat.leb_spec (length (concat (take 3 (sentencesOf t)))) 400) as [Hs|Hs].
  - split; [lia|]. left. exists pre, (more ++ post).
    split; [|exact Hpre].
    rewrite (app_assoc (concat (take 3 (sentencesOf t))) more post).
    rewrite <- Hmore. exact E.
  - assert (Es : slice t 0 (Z.of_nat 400) = take 400 t).
    { rewrite slice_0. destruct (Z.ltb_spec (Z.of_nat 400) 0); [lia|].
      f_equal. lia. }
    rewrite Es. split.
    + rewrite length_app, length_take. change (length dots) with 3. lia.
    + right. split; [lia | reflexivity].
Qed.

(** X20.  What is dropped from a reply: text after the last terminator, and all of
    a text that has no terminator, so that such a reply is empty (and the
    caller, which sends only a text that is not empty, sends nothing). *)
Theorem shortenResponse_drops (text tail : list N) :
  forallb (fun c => negb (terminator c)) tail = true ->
  sentencesOf (text ++ tail) = sentencesOf text
  /\ shortenResponse tail = []
  /\ (length (concat (take 3 (sentencesOf text))) <= 400 ->
      text <> [] ->
      shortenResponse (text ++ tail) = shortenResponse text).
Proof.
  intros Htail.
  assert (E : sentencesOf (text ++ tail) = sentencesOf text)
    by (apply scan_tail, Htail).
  split; [exact E|]. split.
  - unfold shortenResponse. destruct tail as [|c tail]; [reflexivity|].
    unfold sentencesOf. rewrite (scan_no_terminator _ Htail). reflexivity.
  - intros Hshort Hne. unfold shortenResponse.
    destruct text as [|c text]; [congruence|]. simpl app. cbv zeta.
    change (c :: text ++ tail) with ((c :: text) ++ tail). rewrite E.
    unfold CHAT_MAX_MESSAGE_LENGTH.
    destruct (Nat.leb_spec (length (concat (take 3 (sentencesOf (c :: text))))) 400);
      [reflexivity | lia].
Qed.

(** * Which chat messages are answered: properties *)

Section ChatFacts.

Variable toLowerCase : list N -> list N.
Variable agentId : list N.

(** X21.  The six phrases are looked for anywhere in the lower-case text.  A
    message of someone else that does not reply to a message of the agent
    is ignored as soon as one of them is a piece of its text, wherever it
    stands and also inside a longer word; and when such a message is
    ignored, either it is shorter than three code units and has no reply
    id, or one of the phrases is a piece of its text.  A reply to a message
    of the agent is answered even if it holds a phrase. *)
Theorem shouldIgnoreMessage_phrases (m : Message) :
  userId m <> agentId ->
  let toAgent :=
    present (replyId m)
    && match reply m with
       | Some r => bool_decide (reply_userId r = agentId)
       | None => false
       end in
  let text := toLowerCase (message m) in
  (toAgent = false ->
   (forall pre word post,
      In word ignoreWords -> text = pre ++ word ++ post ->
      shouldIgnoreMessage toLowerCase agentId m = true)
   /\ (shouldIgnoreMessage toLowerCase agentId m = true ->
       (length text < 3 /\ present (replyId m) = false)
       \/ exists pre word post,
            In word ignoreWords /\ text = pre ++ word ++ post))
  /\ (toAgent = true ->
      forall pre word post,
        In word ignoreWords -> text = pre ++ word ++ post ->
        shouldIgnoreMessage toLowerCase agentId m = false).
Proof.
  intros Hown. cbv zeta. unfold shouldIgnoreMessage.
  rewrite bool_decide_eq_false_2 by exact Hown.
  split.
  - intros ->. split.
    + intros pre word post Hw Et.
      assert (Hex : existsb (fun w => includes (toLowerCase (message m)) w)
                      ignoreWords = true).
      { apply existsb_exists. exists word. split; [exact Hw|].
        rewrite Et. apply includes_app. }
      rewrite Hex. destruct (_ && _); reflexivity.
    + destruct ((length (toLowerCase (message m)) <? 3)
                && negb (present (replyId m))) eqn:Es.
      * intros _. left. apply andb_prop in Es as [Hl Hp].
        apply Nat.ltb_lt in Hl. apply negb_true_iff in Hp. auto.
      * destruct (existsb (fun w => includes (toLowerCase (message m)) w)
                    ignoreWords) eqn:Hex; [|discriminate].
        intros _. right. apply existsb_exists in Hex as (word & Hw & Hi).
        destruct (includes_parts _ _ Hi) as (pre & post & Et).
        exists pre, word, post. auto.
  - intros ->. reflexivity.
Qed.

End ChatFacts.

(** X22.  The test in front of "Not responding" compares a boolean with the agent
    id and so never holds: whatever [generateShouldRespond] answered,
    [processMessage] goes on to generate a response. *)
Theorem notResponding_never (agentId shouldRespond : list N) (m : Message) :
  notResponding agentId shouldRespond m = false.
Proof. unfold notResponding, jsNot, strictEquals. apply andb_false_r. Qed.

(** * Starting a conversation: properties *)

(** X23.  When the chat client starts a conversation the topic is one of the
    eight; after a post that succeeded no other is attempted for two hours,
    whatever happens in the chat; a post that failed changes nothing, so the
    next round tries again. *)
Theorem checkForInactivity_spacing (t : ChatTimes) (now : Z) (r : Q)
    (topic : Z) :
  (0 <= r < 1)%Q ->
  snd (checkForInactivity t now r true) = Some topic ->
  (0 <= topic < 8)%Z
  /\ (lastInitiatedConversation t + 7200000 < now)%Z
  /\ (lastMessageTime t + 3600000 < now)%Z
  /\ fst (checkForInactivity t now r false) = t
  /\ forall later r' posted lastMessage,
       (later <= now + 7200000)%Z ->
       snd (checkForInactivity
              {| lastMessageTime := lastMessage;
                 lastInitiatedConversation :=
                   lastInitiatedConversation
                     (fst (checkForInactivity t now r true)) |}
              later r' posted) = None.
Proof.
  intros Hr. unfold checkForInactivity. cbv zeta.
  destruct ((60 * 60 * 1000 <? now - lastMessageTime t)%Z
            && (2 * (60 * 60 * 1000) <? now - lastInitiatedConversation t)%Z)
    eqn:E; [|discriminate].
  apply andb_prop in E as [E1 E2]. apply Z.ltb_lt in E1, E2.
  cbn [snd]. intros [= <-].
  pose proof (floor_scaled_range r (Z.of_nat conversationStarterTopics) Hr
                ltac:(unfold conversationStarterTopics; lia)) as Ht.
  unfold conversationStarterTopics in *. change (Z.of_nat 8) with 8%Z in *.
  split; [exact Ht|]. split; [lia|]. split; [lia|]. split; [reflexivity|].
  intros later r' posted lastMessage Hl.
  cbn [fst lastInitiatedConversation lastMessageTime].
  destruct (Z.ltb_spec (2 * (60 * 60 * 1000)) (later - now)); [lia|].
  rewrite andb_false_r. reflexivity.
Qed.

(** * The history of posts: properties *)

Lemma insertPost_perm (p : PostHistory) (l : list PostHistory) :
  Permutation (insertPost p l) (p :: l).
Proof.
  induction l as [|q l IH]; simpl; [reflexivity|].
  destruct (timestamp p <? timestamp q)%Z; [|reflexivity].
  rewrite IH. apply perm_swap.
Qed.

Lemma sortPosts_perm (l : list PostHistory) : Permutation (sortPosts l) l.
Proof.
  induction l as [|p l IH]; simpl; [reflexivity|].
  rewrite insertPost_perm, IH. reflexivity.
Qed.

Lemma insertPost_sorted (p : PostHistory) (l : list PostHistory) :
  StronglySorted newerFirst l -> StronglySorted newerFirst (insertPost p l).
Proof.
  induction l as [|q l IH]; intros Hs; simpl.
  - repeat constructor.
  - apply StronglySorted_inv in Hs as [Hl Hq].
    destruct (Z.ltb_spec (timestamp p) (timestamp q)) as [Hlt|Hge].
    + constructor; [exact (IH Hl)|].
      apply Forall_forall. intros x Hx.
      apply list_elem_of_In in Hx.
      apply (Permutation_in _ (insertPost_perm p l)) in Hx.
      destruct Hx as [<-|Hx]; [unfold newerFirst; lia|].
      rewrite Forall_forall in Hq. apply Hq, list_elem_of_In, Hx.
    + constructor; [constructor; assumption|].
      constructor; [exact Hge|].
      eapply Forall_impl; [exact Hq|]. unfold newerFirst. intros x Hx. lia.
Qed.

Lemma sortPosts_sorted (l : list PostHistory) :
  StronglySorted newerFirst (sortPosts l).
Proof.
  induction l as [|p l IH]; simpl; [constructor|].
  apply insertPost_sorted, IH.
Qed.

Lemma sortPosts_id (l : list PostHistory) :
  StronglySorted newerFirst l -> sortPosts l = l.
Proof.
  induction l as [|p l IH]; intros Hs; simpl; [reflexivity|].
  apply StronglySorted_inv in Hs as [Hl Hp]. rewrite (IH Hl).
  destruct l as [|q l]; [reflexivity|]. simpl.
  apply Forall_cons in Hp as [Hq _]. unfold newerFirst in Hq.
  destruct (Z.ltb_spec (timestamp p) (timestamp q)); [lia | reflexivity].
Qed.

Lemma sortPosts_newest_last (l : list PostHistory) (p : PostHistory) :
  Forall (fun q => (timestamp q < timestamp p)%Z) l ->
  sortPosts (l ++ [p]) = p :: sortPosts l.
Proof.
  induction l as [|q l IH]; intros Hl; simpl; [reflexivity|].
  apply Forall_cons in Hl as [Hq Hl]. rewrite (IH Hl). simpl.
  destruct (Z.ltb_spec (timestamp q) (timestamp p)); [reflexivity | lia].
Qed.

Lemma storePreviousPost_sorted (cached : option (list PostHistory))
    (newContent : list N) (now : Z) :
  StronglySorted newerFirst (storePreviousPost cached newContent now).
Proof.
  unfold storePreviousPost.
  set (posts := _ ++ [_]).
  pose proof (sortPosts_sorted posts) as Hs.
  rewrite <- (take_drop MAX_STORED_POSTS (sortPosts posts)) in Hs.
  exact (StronglySorted_app_1_l _ _ _ Hs).
Qed.

Lemma storePreviousPost_newest (cached : option (list PostHistory))
    (newContent : list N) (now : Z) :
  Forall (fun q => (timestamp q < now)%Z)
         (match cached with Some posts => posts | None => [] end) ->
  storePreviousPost cached newContent now
  = {| content := newContent; timestamp := now |}
    :: take 49 (sortPosts (match cached with Some posts => posts | None => [] end)).
Proof.
  intros Hold. unfold storePreviousPost.
  rewrite (sortPosts_newest_last _ {| content := newContent; timestamp := now |} Hold).
  reflexivity.
Qed.

(** X24.  What [storePreviousPost] writes back: at most 50 posts, the newest
    first, each of them the new post or one the cache held; and when the
    clock is ahead of every stored post, the new post at the head, followed
    by the 49 newest of before. *)
Theorem storePreviousPost_keeps (cached : option (list PostHistory))
    (newContent : list N) (now : Z) :
  let old := match cached with Some posts => posts | None => [] end in
  let new := {| content := newContent; timestamp := now |} in
  let stored := storePreviousPost cached newContent now in
  length stored <= 50
  /\ StronglySorted newerFirst stored
  /\ Forall (fun p => p = new \/ In p old) stored
  /\ (Forall (fun q => (timestamp q < now)%Z) old ->
      stored = new :: take 49 (sortPosts old)).
Proof.
  cbv zeta. unfold storePreviousPost, MAX_STORED_POSTS.
  set (old := match cached with Some posts => posts | None => [] end).
  set (new := {| content := newContent; timestamp := now |}).
  split; [rewrite length_take; lia|]. split; [|split].
  - exact (storePreviousPost_sorted cached newContent now).
  - apply Forall_forall. intros p Hp.
    apply list_elem_of_In in Hp.
    assert (Hin : In p (sortPosts (old ++ [new]))).
    { rewrite <- (take_drop 50 (sortPosts (old ++ [new]))).
      apply in_or_app. left. exact Hp. }
    apply (Permutation_in _ (sortPosts_perm _)) in Hin.
    apply in_app_or in Hin as [Hin|[<-|[]]]; auto.
  - intros Hold. exact (storePreviousPost_newest cached newContent now Hold).
Qed.

Section SimilarityFacts.

Variable toLowerCase : list N -> list N.

Lemma wordSet_nonempty (s : list N) : wordSet toLowerCase s <> [].
Proof.
  unfold wordSet. intros H.
  pose proof (split_nonempty space (toLowerCase s)) as Hs.
  destruct (split space (toLowerCase s)) as [|w ws] eqn:E; [congruence|].
  assert (Hin : w ∈ remove_dups (w :: ws)).
  { apply elem_of_remove_dups. left. }
  rewrite H in Hin. inversion Hin.
Qed.

Lemma intersection_length (w1 w2 : list (list N)) :
  length (List.filter (fun x => bool_decide (x ∈ w2)) w1)
  <= length (remove_dups (w1 ++ w2)) \/ ~ NoDup w1.
Proof.
  destruct (decide (NoDup w1)) as [Hn|Hn]; [left | right; exact Hn].
  apply submseteq_length, NoDup_submseteq.
  - apply NoDup_ListNoDup, List.NoDup_filter, NoDup_ListNoDup, Hn.
  - intros x Hx. apply list_elem_of_In, List.filter_In in Hx as [Hx _].
    apply elem_of_remove_dups, elem_of_app. left. apply list_elem_of_In, Hx.
Qed.

Lemma similarity_union_nonempty (str1 str2 : list N) :
  1 <= length (remove_dups (wordSet toLowerCase str1
                            ++ wordSet toLowerCase str2)).
Proof.
  destruct (remove_dups _) as [|x l] eqn:E; [|simpl; lia].
  exfalso. pose proof (wordSet_nonempty str1) as Hw.
  destruct (wordSet toLowerCase str1) as [|w w1]; [congruence|].
  assert (Hin : w ∈ remove_dups ((w :: w1) ++ wordSet toLowerCase str2)).
  { apply elem_of_remove_dups. left. }
  rewrite E in Hin. inversion Hin.
Qed.

(** X25.  The similarity is a number from 0 to 1: the set of words of a string is
    never empty, so the quotient is never [0/0]. *)
Theorem calculateStringSimilarity_range (str1 str2 : list N) :
  (0 <= calculateStringSimilarity toLowerCase str1 str2 <= 1)%Q
  /\ 1 <= length (remove_dups (wordSet toLowerCase str1
                               ++ wordSet toLowerCase str2)).
Proof.
  unfold calculateStringSimilarity. cbv zeta.
  set (w1 := wordSet toLowerCase str1). set (w2 := wordSet toLowerCase str2).
  set (i := length (List.filter (fun x => bool_decide (x ∈ w2)) w1)).
  set (u := length (remove_dups (w1 ++ w2))).
  assert (Hu : 1 <= u) by exact (similarity_union_nonempty str1 str2).
  assert (Hi : i <= u).
  { destruct (intersection_length w1 w2) as [H|H]; [exact H|].
    exfalso. apply H. apply NoDup_remove_dups. }
  assert (Hpos : (0 < inject_Z (Z.of_nat u))%Q).
  { change 0%Q with (inject_Z 0). rewrite <- Zlt_Qlt. lia. }
  split; [|exact Hu]. split.
  - apply Qle_shift_div_l; [exact Hpos|]. rewrite Qmult_0_l.
    change 0%Q with (inject_Z 0). rewrite <- Zle_Qle. lia.
  - apply Qle_shift_div_r; [exact Hpos|]. rewrite Qmult_1_l.
    rewrite <- Zle_Qle. lia.
Qed.

Lemma same_words_similarity (w1 w2 : list (list N)) :
  NoDup w1 -> NoDup w2 -> (forall x, x ∈ w1 <-> x ∈ w2) ->
  length (List.filter (fun x => bool_decide (x ∈ w2)) w1)
  = length (remove_dups (w1 ++ w2)).
Proof.
  intros H1 H2 Hsame.
  apply Permutation_length, NoDup_Permutation.
  - apply NoDup_ListNoDup, List.NoDup_filter, NoDup_ListNoDup, H1.
  - apply NoDup_remove_dups.
  - intros x. rewrite elem_of_remove_dups, elem_of_app.
    rewrite list_elem_of_In, List.filter_In, <- list_elem_of_In.
    rewrite bool_decide_eq_true. rewrite Hsame. tauto.
Qed.

Lemma similarity_of_same_words (a b : list N) :
  (forall w, w ∈ wordSet toLowerCase a <-> w ∈ wordSet toLowerCase b) ->
  (calculateStringSimilarity toLowerCase a b == 1)%Q.
Proof.
  intros H. unfold calculateStringSimilarity. cbv zeta.
  rewrite (same_words_similarity (wordSet toLowerCase a)
             (wordSet toLowerCase b)
             ltac:(apply NoDup_remove_dups) ltac:(apply NoDup_remove_dups) H).
  apply Qmult_inv_r.
  pose proof (similarity_union_nonempty a b) as Hu.
  change 0%Q with (inject_Z 0). rewrite inject_Z_injective. lia.
Qed.

(** X26.  The similarity does not depend on the order of the two strings, and two
    strings with the same words in lower case, in any order and number, have
    similarity 1: so has a string with itself. *)
Theorem calculateStringSimilarity_same (str1 str2 : list N) :
  (calculateStringSimilarity toLowerCase str1 str2
   == calculateStringSimilarity toLowerCase str2 str1)%Q
  /\ ((forall w, w ∈ wordSet toLowerCase str1 <-> w ∈ wordSet toLowerCase str2) ->
      (calculateStringSimilarity toLowerCase str1 str2 == 1)%Q)
  /\ (calculateStringSimilarity toLowerCase str1 str1 == 1)%Q.
Proof.
  split; [|split; [apply similarity_of_same_words | apply similarity_of_same_words; tauto]].
  unfold calculateStringSimilarity. cbv zeta.
  set (w1 := wordSet toLowerCase str1). set (w2 := wordSet toLowerCase str2).
  assert (Hn1 : NoDup w1) by apply NoDup_remove_dups.
  assert (Hn2 : NoDup w2) by apply NoDup_remove_dups.
  assert (Ei : length (List.filter (fun x => bool_decide (x ∈ w2)) w1)
             = length (List.filter (fun x => bool_decide (x ∈ w1)) w2)).
  { apply Permutation_length, NoDup_Permutation.
    - apply NoDup_ListNoDup, List.NoDup_filter, NoDup_ListNoDup, Hn1.
    - apply NoDup_ListNoDup, List.NoDup_filter, NoDup_ListNoDup, Hn2.
    - intros x. rewrite !list_elem_of_In, !List.filter_In, <- !list_elem_of_In.
      rewrite !bool_decide_eq_true. tauto. }
  assert (Eu : length (remove_dups (w1 ++ w2)) = length (remove_dups (w2 ++ w1))).
  { apply Permutation_length, NoDup_Permutation; try apply NoDup_remove_dups.
    intros x. rewrite !elem_of_remove_dups, !elem_of_app. tauto. }
  rewrite Ei, Eu. reflexivity.
Qed.

(** X27.  A post that has just been stored is found too similar when it is
    proposed again: with the clock ahead of the stored posts, storing a text
    and then checking the same text against what was stored answers yes. *)
Theorem stored_post_is_too_similar (cached : option (list PostHistory))
    (newContent : list N) (now : Z) :
  Forall (fun q => (timestamp q < now)%Z)
         (match cached with Some posts => posts | None => [] end) ->
  checkContentSimilarity toLowerCase
    (Some (storePreviousPost cached newContent now)) newContent = true.
Proof.
  intros Hold.
  pose proof (storePreviousPost_sorted cached newContent now) as Hs.
  pose proof (storePreviousPost_newest cached newContent now Hold) as Hhead.
  unfold checkContentSimilarity. rewrite (sortPosts_id _ Hs), Hhead.
  cbn [take existsb content]. apply orb_true_iff. left.
  assert (E : (calculateStringSimilarity toLowerCase newContent newContent == 1)%Q)
    by (apply similarity_of_same_words; tauto).
  apply negb_true_iff. apply not_true_is_false. intros Hle.
  apply Qle_bool_iff in Hle. rewrite E in Hle.
  unfold SIMILARITY_THRESHOLD, Qle in Hle. simpl in Hle. lia.
Qed.

End SimilarityFacts.
(** * The client base: properties *)




Section TimelineFacts.

Variable stringToUuid : list N -> list N.
Variable agentId : list N.


(** X29.  How [init] ends.  Without a bearer token it throws before it reads or
    writes anything.  An error of the cache when the profile is read is
    thrown as it is; an error of the cache when the new profile is written
    is not: [init] throws "Failed to load profile" instead.  When [init]
    returns, the profile is the cached one, or the one made from the
    character and written to the cache, and [populateTimeline] has
    returned.  When [populateTimeline] throws, [init] throws the same
    error, and what was done before stays done: the profile written, the
    threads saved. *)
Theorem clientInit_outcome (host : Host) :
  let out := clientInit stringToUuid agentId host in
  let built := characterProfile agentId host in
  let untouched := {| profile_written := None; populated := nothing |} in
  (present (bearerToken host) = false ->
   out = (Throw "Arena bearer token not configured"%string, untouched))
  /\ (present (bearerToken host) = true ->
      (forall e, getCachedProfile host = Throw e ->
         out = (Throw e, untouched))
      /\ (forall e, getCachedProfile host = Return None ->
            cacheProfile host built = Some e ->
            out = (Throw "Failed to load profile"%string, untouched))
      /\ (forall profile, fst out = Return profile ->
            (getCachedProfile host = Return (Some profile)
             /\ profile_written (snd out) = None
             \/ getCachedProfile host = Return None
                /\ cacheProfile host built = None
                /\ profile = built
                /\ profile_written (snd out) = Some built)
            /\ populateTimeline stringToUuid agentId host
               = (None, populated (snd out)))
      /\ (forall e profile,
            fst (fetchProfile agentId host) = Return (Some profile) ->
            fst (populateTimeline stringToUuid agentId host) = Some e ->
            fst out = Throw e
            /\ populated (snd out)
               = snd (populateTimeline stringToUuid agentId host)
            /\ profile_written (snd out) = snd (fetchProfile agentId host))).
Proof.
  cbv zeta. unfold clientInit.
  destruct (present (bearerToken host)); cbn [negb].
  2:{ split; [reflexivity|]. intros H. discriminate H. }
  split; [intros H; discriminate H|]. intros _. unfold fetchProfile.
  destruct (getCachedProfile host) as [[cached|]|e] eqn:Ep.
  - split; [discriminate|]. split; [discriminate|].
    destruct (populateTimeline stringToUuid agentId host) as [[e|] p] eqn:Et;
      cbn [fst snd].
    + split; [discriminate|]. intros e' profile _ [= <-]. auto.
    + split; [|discriminate]. intros profile [= <-]. auto.
  - destruct (cacheProfile host (characterProfile agentId host)) as [e|] eqn:Ec.
    + split; [discriminate|]. split; [reflexivity|].
      split; discriminate.
    + split; [discriminate|]. split; [discriminate|].
      destruct (populateTimeline stringToUuid agentId host) as [[e|] p] eqn:Et;
        cbn [fst snd].
      * split; [discriminate|]. intros e' profile _ [= <-]. auto.
      * split; [|discriminate]. intros profile [= <-]. split; [|reflexivity].
        right. auto.
  - split; [intros e' [= <-]; reflexivity|]. split; [discriminate|].
    split; discriminate.
Qed.

End TimelineFacts.

(** * The configuration: properties *)

Lemma hexRun_length (n : nat) (s rest : list N) :
  hexRun n s = Some rest -> length s = n + length rest.
Proof.
  revert s. induction n as [|n IH]; intros s H; simpl in H.
  - injection H as <-. reflexivity.
  - destruct s as [|c s']; [discriminate|].
    destruct (isHexDigit c); [|discriminate].
    apply IH in H. simpl. lia.
Qed.

Lemma dashHexRun_length (n : nat) (s rest : list N) :
  dashHexRun n s = Some rest -> length s = S n + length rest.
Proof.
  unfold dashHexRun. destruct s as [|c s']; [discriminate|].
  destruct (c =? 45)%N; [|discriminate].
  intros H. apply hexRun_length in H. simpl. lia.
Qed.

Lemma groupIdFormat_length (s : list N) :
  groupIdFormat s = true -> length s = 36.
Proof.
  unfold groupIdFormat.
  destruct (hexRun 8 s) as [s1|] eqn:E1; [|discriminate].
  destruct (dashHexRun 4 s1) as [s2|] eqn:E2; [|discriminate].
  destruct (dashHexRun 4 s2) as [s3|] eqn:E3; [|discriminate].
  destruct (dashHexRun 4 s3) as [s4|] eqn:E4; [|discriminate].
  destruct (dashHexRun 12 s4) as [[|c r]|] eqn:E5; try discriminate.
  intros _.
  apply hexRun_length in E1. apply dashHexRun_length in E2, E3, E4, E5.
  simpl in E5. lia.
Qed.

Section ConfigFacts.

Variable toLowerCase : list N -> list N.

(** X30.  The schema accepts a configuration exactly when its four values are
    strings, the user name is not empty and the group id has the format of
    the regular expression.  So the two length checks of the group id and
    the refinement ("Bearer token must be provided") never decide: a group
    id of that format has 36 code units, and a configuration with an empty
    bearer token is accepted.  [validateArenaConfig] takes the token from
    [process.env.ARENA_COOKIES] when the setting is missing or empty. *)
Theorem arenaEnvSchema_accepts (config : RawConfig) (data : ArenaConfig) :
  (arenaEnvSchema toLowerCase config = Some data
   <-> exists dryRun username token groupId,
         config = {| raw_ARENA_DRY_RUN := Some dryRun;
                     raw_TWITTER_USERNAME := Some username;
                     raw_ARENA_BEARER_TOKEN := Some token;
                     raw_ARENA_GROUP_ID := Some groupId |}
         /\ username <> [] /\ groupIdFormat groupId = true
         /\ data = {| ARENA_DRY_RUN :=
                        bool_decide (toLowerCase dryRun = units "true");
                      TWITTER_USERNAME := username;
                      ARENA_BEARER_TOKEN := token;
                      ARENA_GROUP_ID := groupId |})
  /\ (forall groupId, groupIdFormat groupId = true -> length groupId = 36)
  /\ (forall dryRun username groupId,
        username <> [] -> groupIdFormat groupId = true ->
        exists accepted,
          arenaEnvSchema toLowerCase
            {| raw_ARENA_DRY_RUN := Some dryRun;
               raw_TWITTER_USERNAME := Some username;
               raw_ARENA_BEARER_TOKEN := Some [];
               raw_ARENA_GROUP_ID := Some groupId |} = Some accepted
          /\ ARENA_BEARER_TOKEN accepted = [])
  /\ (forall settings env,
        present (setting_ARENA_BEARER_TOKEN settings) = false ->
        validateArenaConfig toLowerCase settings env = Some data ->
        env_ARENA_COOKIES env = Some (ARENA_BEARER_TOKEN data)).
Proof.
  assert (Hacc : forall dryRun username token groupId,
            username <> [] -> groupIdFormat groupId = true ->
            arenaEnvSchema toLowerCase
              {| raw_ARENA_DRY_RUN := Some dryRun;
                 raw_TWITTER_USERNAME := Some username;
                 raw_ARENA_BEARER_TOKEN := Some token;
                 raw_ARENA_GROUP_ID := Some groupId |}
            = Some {| ARENA_DRY_RUN :=
                        bool_decide (toLowerCase dryRun = units "true");
                      TWITTER_USERNAME := username;
                      ARENA_BEARER_TOKEN := token;
                      ARENA_GROUP_ID := groupId |}).
  { intros dryRun username token groupId Hu Hg.
    unfold arenaEnvSchema. cbn [raw_ARENA_DRY_RUN raw_TWITTER_USERNAME
      raw_ARENA_BEARER_TOKEN raw_ARENA_GROUP_ID ARENA_DRY_RUN TWITTER_USERNAME
      ARENA_BEARER_TOKEN ARENA_GROUP_ID].
    rewrite Hg, (groupIdFormat_length _ Hg).
    destruct username as [|c u]; [congruence|].
    cbn [length present]. rewrite !orb_true_r.
    reflexivity. }
  split; [split|split; [exact groupIdFormat_length|split]].
  - unfold arenaEnvSchema.
    destruct config as [[dryRun|] [username|] [token|] [groupId|]];
      cbn [raw_ARENA_DRY_RUN raw_TWITTER_USERNAME raw_ARENA_BEARER_TOKEN
           raw_ARENA_GROUP_ID]; try discriminate.
    destruct (1 <=? length username) eqn:Eu; [|discriminate].
    destruct (groupIdFormat groupId) eqn:Eg;
      [|rewrite andb_false_r; discriminate].
    intros H. exists dryRun, username, token, groupId.
    split; [reflexivity|].
    split; [intros ->; simpl in Eu; discriminate Eu|].
    split; [exact Eg|].
    destruct (_ && _ && _ && _ && _) in H; [|discriminate].
    injection H as <-. reflexivity.
  - intros (dryRun & username & token & groupId & -> & Hu & Hg & ->).
    exact (Hacc dryRun username token groupId Hu Hg).
  - intros dryRun username groupId Hu Hg.
    eexists. split; [exact (Hacc dryRun username [] groupId Hu Hg)|].
    reflexivity.
  - intros settings env Hs. unfold validateArenaConfig, arenaEnvSchema.
    cbn [raw_ARENA_DRY_RUN raw_TWITTER_USERNAME raw_ARENA_BEARER_TOKEN
         raw_ARENA_GROUP_ID].
    unfold orElse at 3. rewrite Hs.
    destruct (orElse (setting_ARENA_DRY_RUN settings) _) as [dryRun|];
      [|discriminate].
    destruct (orElse (setting_TWITTER_USERNAME settings) _) as [username|];
      [|discriminate].
    destruct (env_ARENA_COOKIES env) as [token|]; [|discriminate].
    destruct (orElse (setting_ARENA_GROUP_ID settings) _) as [groupId|];
      [|discriminate].
    destruct (_ && _); [|discriminate].
    intros H. injection H as <-. reflexivity.
Qed.

End ConfigFacts.

(** * The further properties at sample inputs *)

Lemma drain_settles_everything_witness :
  let s := run half [Add 7; Add 8] init in
  let s' := run half (wake s ++ drive [Err boom; Ok 1%Z]) s in
  length [Err boom; Ok 1%Z] = length (pending s)
  /\ loops s' = [] /\ processing s' = false /\ queue s' = []
  /\ calls (trace s') = submitted [Add 7; Add 8]
  /\ forall j o, [Err boom; Ok 1%Z] !! j = Some o ->
       promises (heap s') !! (length (settled (heap s)) + j)
       = Some (promised o).
Proof.
  cbv zeta.
  assert (H : length [Err boom; Ok 1%Z]
              = length (pending (run half [Add 7; Add 8] init)))
    by (vm_compute; reflexivity).
  exact (conj H (drain_settles_everything half [Add 7; Add 8]
                   [Err boom; Ok 1%Z] H)).
Defined.

Lemma thrown_entry_is_called_again_witness :
  let s3 := run half [Settle 0 (Err boom); Timer 0; Timer 0] stuck in
  loops stuck = [AwaitRequest (bare 0)]
  /\ loops s3 = [AwaitRequest (bare 0)] /\ queue s3 = queue stuck
  /\ calls (trace s3) = calls (trace stuck) ++ [request (bare 0)].
Proof.
  cbv zeta.
  assert (Hl : loops stuck = [AwaitRequest (bare 0)]) by reflexivity.
  assert (Hf : finish (bare 0) (Err boom) (heap stuck)
               = (heap stuck, Thrown boom)) by reflexivity.
  exact (conj Hl (thrown_entry_is_called_again half stuck (bare 0) (Err boom)
                    (heap stuck) boom Hl Hf)).
Defined.

Lemma truncateMessage_shape_witness :
  let content := units "Hello world. This is a test" in
  let result := truncateMessage content 15 in
  (15 < Z.of_nat (length content))%Z
  /\ last result = Some period
  /\ (exists c rest, result = c :: rest /\ is_white c = false)
  /\ (exists n, result = trim (take n content)
                \/ result = trim (take n content) ++ dots).
Proof.
  cbv zeta.
  assert (H : (15 < Z.of_nat (length (units "Hello world. This is a test")))%Z)
    by (vm_compute; reflexivity).
  exact (conj H (truncateMessage_shape _ 15 H)).
Defined.


Lemma truncateMessage_unbroken_witness :
  let content := units "Helloworldthisisatest" in
  (15 < Z.of_nat (length content))%Z
  /\ 2 <= length content
  /\ truncateMessage content 15 = removelast content ++ dots.
Proof.
  cbv zeta.
  assert (H1 : (15 < Z.of_nat (length (units "Helloworldthisisatest")))%Z)
    by (vm_compute; reflexivity).
  assert (H2 : 2 <= length (units "Helloworldthisisatest"))
    by (vm_compute; lia).
  assert (H3 : forallb (fun c => negb (is_white c) && negb (c =? period)%N)
                 (units "Helloworldthisisatest") = true)
    by (vm_compute; reflexivity).
  exact (conj H1 (conj H2 (truncateMessage_unbroken _ 15 H1 H2 H3))).
Defined.



Lemma loop_delays_witness :
  (0 <= 1 # 2 < 1)%Q
  /\ (120000 <= interactionsDelay (1 # 2) <= 300000)%Z
  /\ (interactionsDelay (1 # 2) mod 60000 = 0)%Z
  /\ (5000 <= chatDelay (1 # 2) <= 20000)%Z
  /\ (chatDelay (1 # 2) mod 1000 = 0)%Z.
Proof.
  assert (H1 : (0 <= 1 # 2 < 1)%Q) by (split; [discriminate | reflexivity]).
  exact (conj H1 (loop_delays (1 # 2) H1)).
Defined.


Lemma getAllNotifications_consistent_witness :
  (1 <= 2)%Z /\ (0 <= 3)%Z
  /\ getAllNotifications twoPages 3
     = Some (Return (flat_map (fun p => pageItems (twoPages p))
                              (pagesFrom 1 (Z.to_nat (Z.min 2 3)))),
             pagesFrom 1 (Z.to_nat (Z.min 2 3))).
Proof.
  assert (H1 : (1 <= 2)%Z) by lia.
  assert (H2 : (0 <= 3)%Z) by lia.
  assert (H3 : forall p, (1 <= p <= 2)%Z ->
            exists ns, ns <> []
              /\ twoPages p
                 = Fetched {| notifications := Some ns;
                              numberOfPages := Count (inject_Z 2) |})
    by (intros p _; exists [p]; split; [discriminate | reflexivity]).
  exact (conj H1 (conj H2 (getAllNotifications_consistent twoPages 2 3
                             H1 H2 H3))).
Defined.

Lemma getAllThreads_until_empty_witness :
  (0 <= 2 < 5)%Z
  /\ feedItems (shortFeed (2 + 1)) = []
  /\ answered shortFeed (2 + 1)
  /\ getAllThreads shortFeed 5
     = Some (Return (flat_map (fun p => feedItems (shortFeed p))
                              (pagesFrom 1 (Z.to_nat 2))),
             pagesFrom 1 (Z.to_nat (2 + 1))).
Proof.
  assert (H1 : (0 <= 2 < 5)%Z) by lia.
  assert (H2 : forall p, (1 <= p <= 2)%Z ->
            exists ts, ts <> [] /\ shortFeed p = Fetched (Some ts)).
  { intros p [_ Hp]. exists [p]. split; [discriminate|].
    unfold shortFeed. apply Z.leb_le in Hp. rewrite Hp. reflexivity. }
  assert (H3 : feedItems (shortFeed (2 + 1)) = []) by reflexivity.
  assert (H4 : answered shortFeed (2 + 1))
    by (unfold answered, shortFeed; eauto).
  exact (conj H1 (conj H3 (conj H4 (getAllThreads_until_empty shortFeed 2 5
                                      H1 H2 H3 H4)))).
Defined.

Lemma parseThreadIdFromLink_path_witness :
  let user := units "bob" in
  let kind := units "status" in
  let id := units "42" in
  let rest := units "likes" in
  parseThreadIdFromLink (user ++ slash :: kind ++ slash :: id) = Some id
  /\ parseThreadIdFromLink (slash :: user ++ slash :: kind ++ slash :: id)
     = Some id
  /\ parseThreadIdFromLink
       (slash :: user ++ slash :: kind ++ slash :: id ++ slash :: rest)
     = Some id.
Proof.
  cbv zeta.
  assert (H1 : segment (units "bob")) by (split; [vm_compute; discriminate | vm_compute; intuition discriminate]).
  assert (H2 : segment (units "42")) by (split; [vm_compute; discriminate | vm_compute; intuition discriminate]).
  exact (parseThreadIdFromLink_path (units "bob") (units "status")
           (units "42") (units "likes") H1 H2 (or_intror eq_refl)).
Defined.

Lemma parseThreadIdFromLink_null_witness :
  let a := units "status" in
  let b := units "42" in
  let scheme := units "https:" in
  let host := units "arena.social" in
  let id := units "42" in
  let rest := units "bob/status/42" in
  (forall link, length (segmentsOf link) < 3 ->
     parseThreadIdFromLink link = None)
  /\ parseThreadIdFromLink (slash :: a ++ slash :: b) = None
  /\ parseThreadIdFromLink (slash :: a) = None
  /\ parseThreadIdFromLink [] = None
  /\ (forall link,
        includes link (units "nested") = false ->
        includes link (units "status") = false ->
        parseThreadIdFromLink link = None)
  /\ parseThreadIdFromLink (scheme ++ slash :: slash :: host ++ slash :: rest)
     = None
  /\ parseThreadIdFromLink
       (scheme ++ slash :: slash :: units "status" ++ slash :: id)
     = Some id.
Proof.
  cbv zeta.
  assert (H1 : segment (units "status")) by (split; [vm_compute; discriminate | vm_compute; intuition discriminate]).
  assert (H2 : segment (units "42")) by (split; [vm_compute; discriminate | vm_compute; intuition discriminate]).
  assert (H3 : segment (units "https:")) by (split; [vm_compute; discriminate | vm_compute; intuition discriminate]).
  assert (H4 : segment (units "arena.social")) by (split; [vm_compute; discriminate | vm_compute; intuition discriminate]).
  assert (H5 : units "arena.social" <> units "nested")
    by (vm_compute; discriminate).
  assert (H6 : units "arena.social" <> units "status")
    by (vm_compute; discriminate).
  destruct (parseThreadIdFromLink_null (units "status") (units "42")
              (units "https:") (units "arena.social") (units "42")
              (units "bob/status/42") H1 H2 H3 H4 H2)
    as (A & B & C & D & E & F & G).
  exact (conj A (conj B (conj C (conj D (conj E (conj (F H5 H6) G)))))).
Defined.

Lemma parseThreadIdFromLink_result_witness :
  parseThreadIdFromLink (units "/bob/nested/42/likes") = Some (units "42")
  /\ segment (units "42")
  /\ exists a b, units "/bob/nested/42/likes" = a ++ units "42" ++ b.
Proof.
  assert (H : parseThreadIdFromLink (units "/bob/nested/42/likes")
              = Some (units "42")) by (vm_compute; reflexivity).
  exact (conj H (parseThreadIdFromLink_result _ _ H)).
Defined.

Lemma shortenResponse_drops_witness :
  let text := units "Hi there. All good! " in
  let tail := units "and so on" in
  forallb (fun c => negb (terminator c)) tail = true
  /\ sentencesOf (text ++ tail) = sentencesOf text
  /\ shortenResponse tail = []
  /\ (length (concat (take 3 (sentencesOf text))) <= 400 ->
      text <> [] ->
      shortenResponse (text ++ tail) = shortenResponse text).
Proof.
  cbv zeta.
  assert (H : forallb (fun c => negb (terminator c)) (units "and so on") = true)
    by (vm_compute; reflexivity).
  exact (conj H (shortenResponse_drops (units "Hi there. All good! ")
                   (units "and so on") H)).
Defined.

Lemma checkForInactivity_spacing_witness :
  let t := {| lastMessageTime := 0; lastInitiatedConversation := 0 |} in
  let now := 10000000%Z in
  (0 <= 1 # 2 < 1)%Q
  /\ snd (checkForInactivity t now (1 # 2) true) = Some 4%Z
  /\ (0 <= 4 < 8)%Z
  /\ (lastInitiatedConversation t + 7200000 < now)%Z
  /\ (lastMessageTime t + 3600000 < now)%Z
  /\ fst (checkForInactivity t now (1 # 2) false) = t
  /\ forall later r' posted lastMessage,
       (later <= now + 7200000)%Z ->
       snd (checkForInactivity
              {| lastMessageTime := lastMessage;
                 lastInitiatedConversation :=
                   lastInitiatedConversation
                     (fst (checkForInactivity t now (1 # 2) true)) |}
              later r' posted) = None.
Proof.
  cbv zeta.
  assert (H1 : (0 <= 1 # 2 < 1)%Q) by (split; [discriminate | reflexivity]).
  assert (H2 : snd (checkForInactivity
                      {| lastMessageTime := 0; lastInitiatedConversation := 0 |}
                      10000000 (1 # 2) true) = Some 4%Z)
    by (vm_compute; reflexivity).
  exact (conj H1 (conj H2 (checkForInactivity_spacing _ _ _ _ H1 H2))).
Defined.

Lemma stored_post_is_too_similar_witness :
  Forall (fun q => (timestamp q < 10)%Z)
         (match Some [olderPost] with Some posts => posts | None => [] end)
  /\ checkContentSimilarity lowered
       (Some (storePreviousPost (Some [olderPost]) (units "hello arena") 10))
       (units "hello arena") = true.
Proof.
  assert (H : Forall (fun q => (timestamp q < 10)%Z)
                (match Some [olderPost] with
                 | Some posts => posts | None => [] end))
    by (constructor; [reflexivity | constructor]).
  exact (conj H (stored_post_is_too_similar lowered (Some [olderPost])
                   (units "hello arena") 10 H)).
Defined.

Lemma shouldIgnoreMessage_phrases_witness :
  userId rudeMessage <> units "agent"
  /\ lowered (message rudeMessage)
     = units "please " ++ units "stop" ++ units " it"
  /\ In (units "stop") ignoreWords
  /\ shouldIgnoreMessage lowered (units "agent") rudeMessage = true.
Proof.
  assert (H1 : userId rudeMessage <> units "agent")
    by (vm_compute; discriminate).
  assert (H2 : lowered (message rudeMessage)
               = units "please " ++ units "stop" ++ units " it")
    by (vm_compute; reflexivity).
  assert (H3 : In (units "stop") ignoreWords)
    by (vm_compute; auto).
  destruct (shouldIgnoreMessage_phrases lowered (units "agent") rudeMessage H1)
    as [A _].
  exact (conj H1 (conj H2 (conj H3
           (proj1 (A eq_refl) (units "please ") (units "stop") (units " it")
              H3 H2)))).
Defined.
